(** * Recurrent-memory wrapper ([modeling_rmt.py]): segmentation and the
      segment-by-segment forward pass

    Token id tensors are lists of [Z]; a batch is a list of rows.  Python and
    torch calls that can raise are modelled in an error monad, so that the
    inputs on which the wrapper aborts are visible in the statements. *)

From Stdlib Require Import PrimFloat.
From stdpp Require Import base list gmap strings pretty.

Local Open Scope Z_scope.

(** ** Exceptions and the error monad *)

Inductive exn : Set :=
  | ZeroDivisionError
  | RuntimeError
  | TypeError
  | IndexError
  | KeyError
  | AttributeError
  | UnboundLocalError.

Inductive result (A : Type) : Type :=
  | Ok (a : A)
  | Raise (e : exn).
Arguments Ok {A} a.
Arguments Raise {A} e.

Definition rbind {A B} (m : result A) (k : A → result B) : result B :=
  match m with
  | Ok a => k a
  | Raise e => Raise e
  end.

Notation "'let!' x ':=' m 'in' k" := (rbind m (fun x => k))
  (at level 10, x name, m at level 100, k at level 200).

(** A [for] loop that builds a list and stops at the first exception. *)
Fixpoint for_each {A B} (f : A → result B) (l : list A) : result (list B) :=
  match l with
  | [] => Ok []
  | x :: l' =>
      let! y := f x in
      let! ys := for_each f l' in
      Ok (y :: ys)
  end.

(** ** Python and torch primitives used by the wrapper *)
Module Py.

(** [seq[:k]]: a negative bound counts from the end. *)
Definition slice_to {A} (k : Z) (l : list A) : list A :=
  if 0 <=? k then take (Z.to_nat k) l
  else take (Z.to_nat (Z.of_nat (length l) + k)) l.

(** Ceiling of the quotient of two integers. *)
Definition ceil_div (a b : Z) : Z := - ((- a) / b).

(** [math.ceil(a / b)].  True division by zero raises; the quotient of two
    lengths is far below 2^53, so the float quotient rounds up to the exact
    integer ceiling. *)
Definition math_ceil_div (a b : Z) : result Z :=
  if b =? 0 then Raise ZeroDivisionError else Ok (ceil_div a b).

(** [range(n)]. *)
Definition range (n : Z) : list nat := seq 0 (Z.to_nat n).

(** [torch.split(t, split_size)] on a 1-d tensor, [split_size > 0]: ATen
    narrows [max(ceil(len/split_size), 1)] windows of width [split_size],
    the last one shorter. *)
Definition torch_split {A} (split_size : nat) (t : list A) : list (list A) :=
  let num_splits := Nat.max (Nat.div (length t + split_size - 1) split_size) 1 in
  map (fun i => take split_size (drop (i * split_size) t)) (seq 0 num_splits).

(** [torch.chunk(t, chunks)]: [chunks <= 0] is rejected; the split size is
    [ceil(len/chunks)]; an empty tensor gives [chunks] empty pieces. *)
Definition torch_chunk {A} (t : list A) (chunks : Z) : result (list (list A)) :=
  if chunks <=? 0 then Raise RuntimeError
  else
    let split_size := (Z.of_nat (length t) + chunks - 1) / chunks in
    if split_size =? 0 then Ok (replicate (Z.to_nat chunks) [])
    else Ok (torch_split (Z.to_nat split_size) t).

(** [F.pad(t, (0, pad_size))]: constant mode, fill value 0. *)
Definition F_pad (t : list Z) (pad_size : Z) : list Z :=
  t ++ replicate (Z.to_nat pad_size) 0.

(** [s[::-1][i] if len(s) > i else None]. *)
Definition rev_item {A} (s : list A) (i : nat) : option A :=
  if decide (i < length s)%nat then reverse s !! i else None.

End Py.

(** ** The wrapper's configuration ([set_params], [extract_special_tokens],
       [extend_word_embeddings]) *)

Record RMTEncoder : Set := {
  vocab_size : Z;          (* rows of the embedding table before extension *)
  num_mem_tokens : nat;
  pad_token_id : Z;
  cls_token : Z;
  sep_token : Z;
  input_size : Z;          (* rmt_config['input_size'] *)
  max_n_segments : Z;      (* rmt_config['max_n_segments'] *)
  bptt_depth : Z;          (* rmt_config['bptt_depth'] *)
  sum_loss : bool          (* rmt_config['sum_loss'] *)
}.

Definition segment_size (self : RMTEncoder) : Z :=
  input_size self - Z.of_nat (num_mem_tokens self) - 3.

(** [torch.arange(vocab_size, vocab_size + num_mem_tokens)] *)
Definition mem_token_ids (self : RMTEncoder) : list Z :=
  map (fun i => vocab_size self + Z.of_nat i) (seq 0 (num_mem_tokens self)).

(** [range(1, 1 + num_mem_tokens)] *)
Definition memory_position (self : RMTEncoder) : list nat :=
  seq 1 (num_mem_tokens self).

(** ** Segment assembly and segmentation *)

(** The concatenation of line 127, before padding. *)
Definition assembled (self : RMTEncoder) (tensor : list Z) : list Z :=
  [cls_token self] ++ mem_token_ids self ++ [sep_token self]
    ++ tensor ++ [sep_token self].

Definition pad_add_special_tokens (self : RMTEncoder) (tensor : list Z)
    (segment_size : Z) : list Z :=
  let tensor :=
    [cls_token self] ++ mem_token_ids self ++ [sep_token self]
      ++ tensor ++ [sep_token self] in
  let pad_size := segment_size - Z.of_nat (length tensor) in
  if 0 <? pad_size then Py.F_pad tensor pad_size else tensor.

(** Segment assembly as section 4.4 of the specification words it: the
    right padding is made of [pad_token_id]. *)
Definition pad_add_special_tokens_spec (self : RMTEncoder) (tensor : list Z)
    (width : Z) : list Z :=
  assembled self tensor
    ++ replicate (Z.to_nat (width - Z.of_nat (length (assembled self tensor))))
         (pad_token_id self).

(** The boolean mask of line 101. *)
Definition keep_token (self : RMTEncoder) (t : Z) : bool :=
  negb (t =? pad_token_id self) && negb (t =? cls_token self)
    && negb (t =? sep_token self).

Definition strip_special (self : RMTEncoder) (seq : list Z) : list Z :=
  List.filter (keep_token self) seq.

(** What is left of a raw row before chunking. *)
Definition truncated (self : RMTEncoder) (seq : list Z) : list Z :=
  Py.slice_to (segment_size self * max_n_segments self) (strip_special self seq).

(** Body of the loop over the batch in [pad_and_segment]. *)
Definition segment_sequence (self : RMTEncoder) (seq : list Z)
    : result (list (list Z)) :=
  let seq := strip_special self seq in
  let seq := Py.slice_to (segment_size self * max_n_segments self) seq in
  let! n_seg := Py.math_ceil_div (Z.of_nat (length seq)) (segment_size self) in
  let! input_segments := Py.torch_chunk seq n_seg in
  Ok (map (fun t => pad_add_special_tokens self t (input_size self)) input_segments).

(** Lines 113-114: index the reversed chunk lists, then reverse the slots. *)
Definition right_align {A} (max_n : Z) (segmented_batch : list (list A))
    : list (list (option A)) :=
  reverse (map (fun i => map (fun s => Py.rev_item s i) segmented_batch)
           (Py.range max_n)).

Definition pad_and_segment (self : RMTEncoder) (input_ids : list (list Z))
    : result (list (list (option (list Z)))) :=
  let! segmented_batch := for_each (segment_sequence self) input_ids in
  Ok (right_align (max_n_segments self) segmented_batch).

(** ** Reading a segmented batch back *)

(** The segments of batch element [b], absent slots dropped, in slot order. *)
Definition slots_of {A} (b : nat) (segmented : list (list (option A))) : list A :=
  omap (fun slot => mjoin (slot !! b)) segmented.

Fixpoint take_until (x : Z) (l : list Z) : list Z :=
  match l with
  | [] => []
  | y :: l' => if y =? x then [] else y :: take_until x l'
  end.

(** Content portion of an assembled segment: what stands after the header
    [CLS, mem ids, SEP] and before the closing [SEP]. *)
Definition segment_content (self : RMTEncoder) (segment : list Z) : list Z :=
  take_until (sep_token self) (drop (num_mem_tokens self + 2) segment).


(** ** The forward pass ([__call__]) *)

(** Values held by the output object of the base encoder. *)
Inductive value (Vec Tensor : Type) : Type :=
  | VTensor (t : Tensor)                      (* loss, logits, ... *)
  | VHiddens (hs : list (list (list Vec)))    (* tuple of (batch, seq, hidden) tensors *)
  | VNone.
Arguments VTensor {Vec Tensor} t.
Arguments VHiddens {Vec Tensor} hs.
Arguments VNone {Vec Tensor}.

(** Keyword arguments the wrapper hands to [self.model.forward], next to
    [output_hidden_states=True]. *)
Record model_input (Vec Label : Type) : Type := {
  inputs_embeds : list (list Vec);
  attention_mask : list (list Z);
  token_type_ids : list (list Z);
  labels : list Label
}.
Arguments inputs_embeds {Vec Label} _.
Arguments attention_mask {Vec Label} _.
Arguments token_type_ids {Vec Label} _.
Arguments labels {Vec Label} _.

(** The external collaborators: the embedding table and forward function of
    the base encoder, and the two torch reductions applied to losses. *)
Class BaseModel : Type := {
  Vec : Type;
  Tensor : Type;
  Label : Type;
  embeddings : Z → Vec;
  forward : model_input Vec Label → result (gmap string (value Vec Tensor));
  tensor_mean : Tensor → Tensor;            (* [l.mean()] *)
  stack_sum : list Tensor → Tensor          (* [torch.stack(ls).sum(dim=0)], [ls] not empty *)
}.

(** The caller's [**kwargs], as far as [__call__] reads them. *)
Record kwargs `{BaseModel} : Type := {
  kw_labels : option (list Label);          (* [kwargs['labels']] *)
  kw_output_hidden_states : bool            (* truth of [kwargs.get('output_hidden_states')] *)
}.

(** The memory tensor (batch, num_mem_tokens, hidden) with the segment steps
    recorded in its gradient graph. *)
Record memory_t `{BaseModel} : Type := {
  mem_rows : list (list Vec);
  mem_graph : list nat
}.

(** One invocation of the base encoder. *)
Record call_record `{BaseModel} : Type := {
  call_seg : nat;
  call_graph : list nat;                    (* graph of the memory injected *)
  call_input : model_input Vec Label;
  call_output : gmap string (value Vec Tensor)
}.

(** Local variables of [__call__] that live across loop iterations. *)
Record loop_state `{BaseModel} : Type := {
  st_memory : memory_t;
  st_losses : list (value Vec Tensor);
  st_out : option (gmap string (value Vec Tensor));
  st_calls : list call_record
}.

Module Torch.

Definition count_true (mask : list bool) : nat := length (List.filter id mask).

(** [t[mask]] with a boolean mask over the leading dimension. *)
Fixpoint select {A} (mask : list bool) (t : list A) : list A :=
  match mask, t with
  | m :: mask', x :: t' => if m then x :: select mask' t' else select mask' t'
  | _, _ => []
  end.

Definition mask_select {A} (mask : list bool) (t : list A) : result (list A) :=
  if (length mask =? length t)%nat then Ok (select mask t) else Raise IndexError.

(** [t[mask] = src], rows of [src] consumed in order. *)
Fixpoint scatter {A} (mask : list bool) (t src : list A) : list A :=
  match mask, t with
  | true :: mask', x :: t' =>
      match src with
      | v :: src' => v :: scatter mask' t' src'
      | [] => x :: t'
      end
  | false :: mask', x :: t' => x :: scatter mask' t' src
  | _, _ => t
  end.

(** A source with a single row is broadcast over the selected rows. *)
Definition mask_assign {A} (mask : list bool) (t src : list A) : result (list A) :=
  if negb (length mask =? length t)%nat then Raise IndexError
  else if (length src =? count_true mask)%nat then Ok (scatter mask t src)
  else match src with
       | [v] => Ok (scatter mask t (replicate (count_true mask) v))
       | _ => Raise RuntimeError
       end.

(** [torch.stack(ts)]: every element must be a tensor, all of one size. *)
Definition stack (ts : list (option (list Z))) : result (list (list Z)) :=
  let! rows := for_each (fun o => match o with
                                  | Some t => Ok t
                                  | None => Raise TypeError
                                  end) ts in
  match rows with
  | [] => Raise RuntimeError
  | r :: rest =>
      if forallb (fun r' => (length r' =? length r)%nat) rest then Ok rows
      else Raise RuntimeError
  end.

(** [row[pos]] for a list of positions. *)
Definition index_row {A} (pos : list nat) (row : list A) : result (list A) :=
  for_each (fun p => match row !! p with
                     | Some v => Ok v
                     | None => Raise IndexError
                     end) pos.

(** [row[pos] = vals]. *)
Definition assign_row {A} (pos : list nat) (row vals : list A) : result (list A) :=
  if negb (forallb (fun p => (p <? length row)%nat) pos) then Raise IndexError
  else if negb (length vals =? length pos)%nat then Raise RuntimeError
  else Ok (foldl (fun r pv => <[pv.1 := pv.2]> r) row (zip pos vals)).

(** [t[:, pos] = src], row by row. *)
Fixpoint assign_columns {A} (pos : list nat) (t src : list (list A))
    : result (list (list A)) :=
  match t, src with
  | [], [] => Ok []
  | row :: t', vals :: src' =>
      let! r := assign_row pos row vals in
      let! rs := assign_columns pos t' src' in
      Ok (r :: rs)
  | _, _ => Raise RuntimeError
  end.

End Torch.

(** [p in s] on strings. *)
Fixpoint str_contains (p s : string) : bool :=
  String.prefix p s ||
  match s with
  | EmptyString => false
  | String _ s' => str_contains p s'
  end.

(** [f'loss_{i}'] *)
Definition loss_key (i : nat) : string := "loss_" +:+ pretty i.

Definition is_tensor (o : option (list Z)) : bool :=
  match o with Some _ => true | None => false end.

Section Forward.
Context `{M : BaseModel}.

Local Abbreviation output := (gmap string (value Vec Tensor)).

Definition get_attention_mask (self : RMTEncoder) (tensor : list (list Z))
    : list (list Z) :=
  map (map (fun t => if t =? pad_token_id self then 0 else 1)) tensor.

Definition get_token_type_ids (tensor : list (list Z)) : list (list Z) :=
  map (map (fun _ => 0)) tensor.

(** [set_memory()] with no memory supplied. *)
Definition set_memory (self : RMTEncoder) : list Vec :=
  map embeddings (mem_token_ids self).

Definition detach (memory : memory_t) : memory_t :=
  {| mem_rows := mem_rows memory; mem_graph := [] |}.

(** The test of line 54. *)
Definition detach_here (self : RMTEncoder) (n_slots seg_num : nat) : bool :=
  (-1 <? bptt_depth self)
    && (bptt_depth self <? Z.of_nat n_slots - Z.of_nat seg_num).

(** The memory a slot works on, after the test of line 54. *)
Definition memory_at (self : RMTEncoder) (n_slots seg_num : nat)
    (st : loop_state) : memory_t :=
  if detach_here self n_slots seg_num then detach (st_memory st)
  else st_memory st.

(** [out.hidden_states[-1]]: by the encoder's contract the entry is the
    tuple of per-layer hidden states; an output without it cannot be
    subscripted. *)
Definition last_hidden_state (out : output) : result (list (list Vec)) :=
  match out !! "hidden_states" with
  | Some (VHiddens hs) =>
      match last hs with
      | Some h => Ok h
      | None => Raise IndexError
      end
  | _ => Raise TypeError
  end.

(** [out['loss']] *)
Definition get_item (out : output) (key : string) : result (value Vec Tensor) :=
  match out !! key with
  | Some v => Ok v
  | None => Raise KeyError
  end.

(** Body of the loop over the slots (lines 54-78). *)
Definition segment_step (self : RMTEncoder) (n_slots : nat) (kw : kwargs)
    (seg_num : nat) (segment_input_ids : list (option (list Z)))
    (st : loop_state) : result loop_state :=
  let memory :=
    if detach_here self n_slots seg_num then detach (st_memory st)
    else st_memory st in
  let non_empty_mask := map is_tensor segment_input_ids in
  if (Torch.count_true non_empty_mask =? 0)%nat then
    Ok {| st_memory := memory; st_losses := st_losses st;
          st_out := st_out st; st_calls := st_calls st |}
  else
    let! stacked := Torch.stack segment_input_ids in
    let! input_ids := Torch.mask_select non_empty_mask stacked in
    let attention_mask := get_attention_mask self input_ids in
    let token_type_ids := get_token_type_ids input_ids in
    let! all_labels := match kw_labels kw with
                       | Some l => Ok l
                       | None => Raise KeyError
                       end in
    let! seg_labels := Torch.mask_select non_empty_mask all_labels in
    let inputs_embeds := map (map embeddings) input_ids in
    let! active_memory := Torch.mask_select non_empty_mask (mem_rows memory) in
    let! inputs_embeds :=
      Torch.assign_columns (memory_position self) inputs_embeds active_memory in
    let seg_kwargs :=
      {| inputs_embeds := inputs_embeds; attention_mask := attention_mask;
         token_type_ids := token_type_ids; labels := seg_labels |} in
    let! out := forward seg_kwargs in
    let! hidden := last_hidden_state out in
    let! new_memory := for_each (Torch.index_row (memory_position self)) hidden in
    let! rows := Torch.mask_assign non_empty_mask (mem_rows memory) new_memory in
    let! loss := get_item out "loss" in
    Ok {| st_memory := {| mem_rows := rows;
                          mem_graph := seg_num :: mem_graph memory |};
          st_losses := st_losses st ++ [loss];
          st_out := Some out;
          st_calls := st_calls st ++
            [{| call_seg := seg_num; call_graph := mem_graph memory;
                call_input := seg_kwargs; call_output := out |}] |}.

(** [for seg_num, segment_input_ids in enumerate(segmented)] *)
Fixpoint run_segments (self : RMTEncoder) (n_slots : nat) (kw : kwargs)
    (seg_num : nat) (slots : list (list (option (list Z))))
    (st : loop_state) : result loop_state :=
  match slots with
  | [] => Ok st
  | slot :: rest =>
      let! st' := segment_step self n_slots kw seg_num slot st in
      run_segments self n_slots kw (S seg_num) rest st'
  end.

(** Lines 81-84: every key that mentions hidden states is set to [None]. *)
Definition drop_hiddens (out : output) : output :=
  map_imap (fun key v =>
    Some (if str_contains "hidden_state" key then VNone else v)) out.

(** [l.mean()] *)
Definition mean_of (l : value Vec Tensor) : result Tensor :=
  match l with
  | VTensor t => Ok (tensor_mean t)
  | _ => Raise AttributeError
  end.

(** Lines 86-87, from index [i] on. *)
Fixpoint set_loss_fields (i : nat) (losses : list (value Vec Tensor))
    (out : option output) : result (option output) :=
  match losses with
  | [] => Ok out
  | l :: rest =>
      let! m := mean_of l in
      match out with
      | None => Raise UnboundLocalError
      | Some o => set_loss_fields (S i) rest (Some (<[loss_key i := VTensor m]> o))
      end
  end.

(** [torch.stack(losses).sum(dim=0)] *)
Definition sum_of (losses : list (value Vec Tensor)) : result Tensor :=
  let! ts := for_each (fun l => match l with
                                | VTensor t => Ok t
                                | _ => Raise TypeError
                                end) losses in
  match ts with
  | [] => Raise RuntimeError
  | _ => Ok (stack_sum ts)
  end.

(** Lines 80-95, after the loop. *)
Definition finish (self : RMTEncoder) (kw : kwargs) (st : loop_state)
    : result output :=
  let! out :=
    if negb (kw_output_hidden_states kw) then
      match st_out st with
      | None => Raise UnboundLocalError
      | Some o => Ok (Some (drop_hiddens o))
      end
    else Ok (st_out st) in
  let! out := set_loss_fields 0 (st_losses st) out in
  let! out :=
    if sum_loss self then
      let! total := sum_of (st_losses st) in
      match out with
      | None => Raise UnboundLocalError
      | Some o => Ok (Some (<["loss" := VTensor total]> o))
      end
    else Ok out in
  match out with
  | None => Raise UnboundLocalError
  | Some o => Ok o
  end.

Definition initial_state (self : RMTEncoder) (batch_size : nat) : loop_state :=
  {| st_memory := {| mem_rows := replicate batch_size (set_memory self);
                     mem_graph := [] |};
     st_losses := []; st_out := None; st_calls := [] |}.

(** The loop of [__call__] on a batch: memory set up, batch segmented, slots
    visited in order. *)
Definition run_forward (self : RMTEncoder) (input_ids : list (list Z))
    (kw : kwargs) : result loop_state :=
  let! segmented := pad_and_segment self input_ids in
  run_segments self (length segmented) kw 0 segmented
    (initial_state self (length input_ids)).

(** [__call__] *)
Definition __call__ (self : RMTEncoder) (input_ids : list (list Z)) (kw : kwargs)
    : result output :=
  let! st := run_forward self input_ids kw in
  finish self kw st.

End Forward.

(** Indices of the slots in which at least one batch element has a segment,
    counted from [i]. *)
Fixpoint processed_from (i : nat) (slots : list (list (option (list Z))))
    : list nat :=
  match slots with
  | [] => []
  | slot :: rest =>
      if existsb is_tensor slot then i :: processed_from (S i) rest
      else processed_from (S i) rest
  end.

(** ** Concrete configurations, batches and a small encoder *)
Module Examples.

(** BERT-like special tokens, two memory tokens, [segment_size = 5],
    three slots. *)
Definition bert : RMTEncoder :=
  {| vocab_size := 1000; num_mem_tokens := 2; pad_token_id := 0;
     cls_token := 101; sep_token := 102; input_size := 10;
     max_n_segments := 3; bptt_depth := -1; sum_loss := true |}.

(** The same wrapper over a RoBERTa-like tokenizer, whose pad id is 1. *)
Definition roberta : RMTEncoder :=
  {| vocab_size := 1000; num_mem_tokens := 2; pad_token_id := 1;
     cls_token := 0; sep_token := 2; input_size := 10;
     max_n_segments := 3; bptt_depth := -1; sum_loss := true |}.

Definition with_bptt (d : Z) (self : RMTEncoder) : RMTEncoder :=
  {| vocab_size := vocab_size self; num_mem_tokens := num_mem_tokens self;
     pad_token_id := pad_token_id self; cls_token := cls_token self;
     sep_token := sep_token self; input_size := input_size self;
     max_n_segments := max_n_segments self; bptt_depth := d;
     sum_loss := sum_loss self |}.

Definition with_sum_loss (s : bool) (self : RMTEncoder) : RMTEncoder :=
  {| vocab_size := vocab_size self; num_mem_tokens := num_mem_tokens self;
     pad_token_id := pad_token_id self; cls_token := cls_token self;
     sep_token := sep_token self; input_size := input_size self;
     max_n_segments := max_n_segments self; bptt_depth := bptt_depth self;
     sum_loss := s |}.

(** Twelve content tokens between CLS and SEP. *)
Definition seqA : list Z :=
  [101; 11; 12; 13; 14; 15; 16; 17; 18; 19; 20; 21; 22; 102].

(** Three content tokens, padded to the width of [seqA]. *)
Definition seqB : list Z :=
  [101; 31; 32; 33; 102; 0; 0; 0; 0; 0; 0; 0; 0; 0].

(** No content token at all. *)
Definition seqE : list Z :=
  [101; 102; 0; 0; 0; 0; 0; 0; 0; 0; 0; 0; 0; 0].

(** A one-layer encoder on scalar hidden states: the layer adds 1 to every
    input embedding, and the loss is the new value at the first memory
    position of the first row. *)
Definition toy_forward (inp : model_input float Z)
    : result (gmap string (value float float)) :=
  let hidden := map (map (fun v => PrimFloat.add v 1)) (inputs_embeds inp) in
  let loss := match hidden with
              | (_ :: m :: _) :: _ => m
              | _ => 0%float
              end in
  Ok (<["loss" := VTensor loss]>
      (<["logits" := VTensor loss]>
       (<["hidden_states" := VHiddens [inputs_embeds inp; hidden]]> ∅))).

Definition toy : BaseModel :=
  {| Vec := float; Tensor := float; Label := Z;
     embeddings := fun _ => 0%float;
     forward := toy_forward;
     tensor_mean := fun t => t;
     stack_sum := fun ts => fold_left PrimFloat.add ts 0%float |}.

Definition toy_kwargs (ls : list Z) : @kwargs toy :=
  @Build_kwargs toy (Some ls) false.

End Examples.

(** The slot-by-slot reading of the alignment, by index arithmetic: slot [i]
    holds chunk [i - (max_n - n_seg)] of a sequence with [n_seg] chunks when
    [i >= max_n - n_seg], and nothing otherwise. *)
Definition right_align_direct {A} (max_n : Z) (segmented_batch : list (list A))
    : list (list (option A)) :=
  map (fun i =>
         map (fun s =>
                let first := max_n - Z.of_nat (length s) in
                if decide (first ≤ Z.of_nat i)
                then s !! Z.to_nat (Z.of_nat i - first) else None)
             segmented_batch)
      (Py.range max_n).

(** ** The dataset's features ([run_bert_epdnewpromoter.py]) *)
Module Dataset.

(** A tokenizer, as far as the dataset and the wrapper use it.  The ids of
    the special tokens are those of the tokens themselves. *)
Record Tokenizer (Tok : Type) : Type := {
  tk_cls_token : Tok;
  tk_sep_token : Tok;
  tk_pad_token_id : Z;
  tokenize : string → list Tok;
  convert_tokens_to_ids : Tok → Z
}.
Arguments tk_cls_token {Tok} _.
Arguments tk_sep_token {Tok} _.
Arguments tk_pad_token_id {Tok} _.
Arguments tokenize {Tok} _ _.
Arguments convert_tokens_to_ids {Tok} _ _.

Definition cls_token_id {Tok} (tk : Tokenizer Tok) : Z :=
  convert_tokens_to_ids tk (tk_cls_token tk).

Definition sep_token_id {Tok} (tk : Tokenizer Tok) : Z :=
  convert_tokens_to_ids tk (tk_sep_token tk).

Record features : Set := {
  input_ids : list Z;
  f_token_type_ids : list Z;
  f_attention_mask : list Z
}.

(** [[v] * n] *)
Definition times (v : Z) (n : Z) : list Z := replicate (Z.to_nat n) v.

(** [EPDnewPromoterDataset.get_features] *)
Definition get_features {Tok} (x : string) (tokenizer : Tokenizer Tok)
    (max_seq_len : Z) (pad_to_max : bool) : features :=
  let tokens :=
    [tk_cls_token tokenizer]
      ++ Py.slice_to (max_seq_len - 2) (tokenize tokenizer x)
      ++ [tk_sep_token tokenizer] in
  let input_ids := map (convert_tokens_to_ids tokenizer) tokens in
  let seq_len := Z.of_nat (length tokens) in
  let token_type_ids := times 0 seq_len in
  let attention_mask := times 1 seq_len in
  if pad_to_max then
    {| input_ids :=
         input_ids ++ times (tk_pad_token_id tokenizer)
                        (Z.max (max_seq_len - seq_len) 0);
       f_token_type_ids :=
         token_type_ids ++ times 0 (Z.max (max_seq_len - seq_len) 0);
       f_attention_mask :=
         attention_mask ++ times 0 (Z.max (max_seq_len - seq_len) 0) |}
  else
    {| input_ids := input_ids; f_token_type_ids := token_type_ids;
       f_attention_mask := attention_mask |}.

End Dataset.

(** [set_params] on a base model whose embedding table has [vocab_size]
    rows: the special ids come from the tokenizer
    ([extract_special_tokens]), the memory ids are appended to the
    vocabulary ([extend_word_embeddings]). *)
Definition set_params {Tok} (vocab_size : Z) (num_mem_tokens : nat)
    (tokenizer : Dataset.Tokenizer Tok) (input_size max_n_segments bptt_depth : Z)
    (sum_loss : bool) : RMTEncoder :=
  {| vocab_size := vocab_size; num_mem_tokens := num_mem_tokens;
     pad_token_id := Dataset.tk_pad_token_id tokenizer;
     cls_token := Dataset.cls_token_id tokenizer;
     sep_token := Dataset.sep_token_id tokenizer;
     input_size := input_size; max_n_segments := max_n_segments;
     bptt_depth := bptt_depth; sum_loss := sum_loss |}.

(** A character-level tokenizer: a token is a character, its id is its
    code; the characters 94 and 36 stand for CLS and SEP, and the pad id
    is 0. *)
Definition char_tokenizer : Dataset.Tokenizer Ascii.ascii :=
  {| Dataset.tk_cls_token := Ascii.ascii_of_nat 94;
     Dataset.tk_sep_token := Ascii.ascii_of_nat 36;
     Dataset.tk_pad_token_id := 0;
     Dataset.tokenize := String.list_ascii_of_string;
     Dataset.convert_tokens_to_ids := fun c => Z.of_nat (Ascii.nat_of_ascii c) |}.

(** [n_seg] of line 104 for a raw row. *)
Definition n_seg (self : RMTEncoder) (seq : list Z) : Z :=
  Py.ceil_div (Z.of_nat (length (truncated self seq))) (segment_size self).


(** * Properties *)

(** ** The error monad *)

Lemma rbind_Ok {A B} (m : result A) (k : A → result B) (b : B) :
  rbind m k = Ok b → ∃ a, m = Ok a ∧ k a = Ok b.
Proof. destruct m as [a|e]; simpl; [eauto | discriminate]. Qed.

Ltac inv_bind H :=
  let a := fresh "a" in
  let Ha := fresh "Ha" in
  apply rbind_Ok in H; destruct H as (a & Ha & H).

Lemma for_each_length {A B} (f : A → result B) l ys :
  for_each f l = Ok ys → length ys = length l.
Proof.
  revert ys. induction l as [|x l IH]; intros ys H; simpl in H.
  - by inversion H.
  - inv_bind H. inv_bind H. inversion H; subst. simpl. f_equal. by apply IH.
Qed.

Lemma for_each_lookup {A B} (f : A → result B) l ys (i : nat) x :
  for_each f l = Ok ys → l !! i = Some x →
  ∃ y, f x = Ok y ∧ ys !! i = Some y.
Proof.
  revert ys i. induction l as [|x0 l IH]; intros ys i H Hi; [done|].
  simpl in H. inv_bind H. inv_bind H. inversion H; subst.
  destruct i as [|i]; simpl in *.
  - inversion Hi; subst. eauto.
  - eapply IH; eauto.
Qed.

Lemma for_each_total {A B} (f : A → result B) l :
  Forall (fun x => ∃ y, f x = Ok y) l → ∃ ys, for_each f l = Ok ys.
Proof.
  induction 1 as [|x l [y Hy] _ [ys Hys]]; simpl; [eauto|].
  rewrite Hy, Hys. simpl. eauto.
Qed.

(** ** Ceiling division *)

Lemma ceil_div_bounds a b :
  0 < b → b * (Py.ceil_div a b - 1) < a ≤ b * Py.ceil_div a b.
Proof.
  intros Hb. unfold Py.ceil_div.
  pose proof (Z.div_mod (- a) b ltac:(lia)).
  pose proof (Z.mod_pos_bound (- a) b Hb). nia.
Qed.

Lemma ceil_div_unique a b n :
  0 < b → b * (n - 1) < a ≤ b * n → Py.ceil_div a b = n.
Proof.
  intros Hb Hn. pose proof (ceil_div_bounds a b Hb). nia.
Qed.

Lemma ceil_div_add a b : 0 < b → (a + b - 1) / b = Py.ceil_div a b.
Proof.
  intros Hb. symmetry. apply ceil_div_unique; [done|].
  pose proof (Z.div_mod (a + b - 1) b ltac:(lia)).
  pose proof (Z.mod_pos_bound (a + b - 1) b Hb). nia.
Qed.

Lemma ceil_div_pos a b : 0 < b → 0 < a → 0 < Py.ceil_div a b.
Proof. intros Hb Ha. pose proof (ceil_div_bounds a b Hb). nia. Qed.

Lemma ceil_div_0 b : Py.ceil_div 0 b = 0.
Proof. unfold Py.ceil_div. simpl. by destruct b. Qed.

(** Splitting [len] items into [ceil(len/s)] chunks: the chunk width
    [c = ceil(len/n)] is at most [s], and it takes exactly [n] chunks. *)
Lemma chunk_width_bounds len s :
  0 < s → 0 < len →
  let n := Py.ceil_div len s in
  let c := Py.ceil_div len n in
  0 < n ∧ 0 < c ≤ s ∧ Py.ceil_div len c = n.
Proof.
  intros Hs Hlen n c.
  assert (Hn : 0 < n) by by apply ceil_div_pos.
  pose proof (ceil_div_bounds len s Hs) as Hns. fold n in Hns.
  pose proof (ceil_div_bounds len n Hn) as Hcn. fold c in Hcn.
  assert (Hc : 0 < c) by by apply ceil_div_pos.
  assert (Hcs : c ≤ s) by nia.
  repeat split; try done.
  apply ceil_div_unique; [done|]. nia.
Qed.

(** ** [torch.split] and [torch.chunk] *)

Lemma concat_windows {A} (k n : nat) (t : list A) :
  (length t ≤ n * k)%nat →
  concat (map (fun i => take k (drop (i * k) t)) (seq 0 n)) = t.
Proof.
  revert t. induction n as [|n IH]; intros t Hlen.
  - destruct t; [done | simpl in Hlen; lia].
  - rewrite <- cons_seq, <- fmap_S_seq. simpl.
    rewrite <- list_fmap_compose.
    rewrite <- (take_drop k t) at 2. f_equal.
    rewrite <- (IH (drop k t)) by (rewrite length_drop; lia).
    f_equal. apply list_fmap_ext. intros _ i _. simpl.
    by rewrite drop_drop.
Qed.

Lemma torch_split_concat {A} (k : nat) (t : list A) :
  (0 < k)%nat → concat (Py.torch_split k t) = t.
Proof.
  intros Hk. apply concat_windows.
  pose proof (Nat.div_mod (length t + k - 1) k ltac:(lia)).
  pose proof (Nat.mod_upper_bound (length t + k - 1) k ltac:(lia)).
  nia.
Qed.

Lemma torch_split_length {A} (k : nat) (t : list A) :
  length (Py.torch_split k t) = Nat.max ((length t + k - 1) / k) 1.
Proof. unfold Py.torch_split. by rewrite length_map, length_seq. Qed.

Lemma torch_split_width {A} (k : nat) (t : list A) :
  Forall (fun c => (length c ≤ k)%nat) (Py.torch_split k t).
Proof.
  apply Forall_fmap, Forall_forall. intros i _. simpl.
  rewrite length_take. lia.
Qed.

(** Chunking a non-empty tensor of length [len] into [ceil(len/s)] pieces
    succeeds, with exactly that many pieces of at most [s] items each. *)
Lemma torch_chunk_ceil {A} (t : list A) (s : Z) :
  0 < s → (0 < length t)%nat →
  ∃ chunks,
    Py.torch_chunk t (Py.ceil_div (Z.of_nat (length t)) s) = Ok chunks
    ∧ concat chunks = t
    ∧ Z.of_nat (length chunks) = Py.ceil_div (Z.of_nat (length t)) s
    ∧ Forall (fun c => Z.of_nat (length c) ≤ s) chunks.
Proof.
  intros Hs Ht.
  destruct (chunk_width_bounds (Z.of_nat (length t)) s Hs ltac:(lia))
    as (Hn & [Hc Hcs] & Hnc).
  set (n := Py.ceil_div (Z.of_nat (length t)) s) in *.
  set (c := Py.ceil_div (Z.of_nat (length t)) n) in *.
  unfold Py.torch_chunk.
  destruct (Z.leb_spec n 0) as [?|_]; [lia|].
  rewrite (ceil_div_add _ n Hn). fold c.
  destruct (Z.eqb_spec c 0) as [?|_]; [lia|].
  eexists; split; [done|].
  split; [apply torch_split_concat; lia|].
  split.
  - rewrite torch_split_length, Nat2Z.inj_max, Nat2Z.inj_div.
    rewrite Nat2Z.inj_sub, Nat2Z.inj_add, Z2Nat.id by lia.
    change (Z.of_nat 1) with 1. rewrite (ceil_div_add _ c Hc), Hnc. lia.
  - eapply Forall_impl; [apply torch_split_width|].
    intros ch Hch. simpl in Hch. lia.
Qed.

(** [torch.chunk] only returns when asked for at least one chunk. *)
Lemma torch_chunk_Ok {A} (t : list A) (n : Z) chunks :
  Py.torch_chunk t n = Ok chunks → 0 < n.
Proof.
  unfold Py.torch_chunk. destruct (Z.leb_spec n 0); [discriminate | lia].
Qed.

Lemma ceil_div_neg_divisor a b : 0 ≤ a → b < 0 → Py.ceil_div a b ≤ 0.
Proof.
  intros Ha Hb. unfold Py.ceil_div.
  replace b with (- - b) by lia. rewrite Z.div_opp_opp by lia.
  pose proof (Z.div_pos a (- b) Ha ltac:(lia)). lia.
Qed.

(** ** Segment assembly *)

Lemma length_mem_token_ids self : length (mem_token_ids self) = num_mem_tokens self.
Proof. unfold mem_token_ids. by rewrite length_map, length_seq. Qed.

Lemma take_until_app x l rest : x ∉ l → take_until x (l ++ x :: rest) = l.
Proof.
  induction l as [|y l IH]; intros Hx; simpl.
  - by rewrite Z.eqb_refl.
  - destruct (Z.eqb_spec y x) as [->|_].
    + exfalso. apply Hx. by left.
    + f_equal. apply IH. intros ?. apply Hx. by right.
Qed.

Lemma length_assembled self tensor :
  length (assembled self tensor) = (num_mem_tokens self + 3 + length tensor)%nat.
Proof.
  unfold assembled. rewrite !length_app, length_mem_token_ids. simpl. lia.
Qed.

Lemma pad_add_special_tokens_unfold self tensor width :
  pad_add_special_tokens self tensor width =
    assembled self tensor
      ++ replicate (Z.to_nat (width - Z.of_nat (length (assembled self tensor)))) 0.
Proof.
  unfold pad_add_special_tokens. fold (assembled self tensor).
  destruct (Z.ltb_spec 0 (width - Z.of_nat (length (assembled self tensor)))).
  - done.
  - rewrite Z2Nat.nonpos by done. simpl. by rewrite app_nil_r.
Qed.

Lemma assembled_split self tensor pads :
  assembled self tensor ++ pads =
    (cls_token self :: mem_token_ids self ++ [sep_token self])
      ++ tensor ++ sep_token self :: pads.
Proof.
  unfold assembled. repeat first [rewrite <- app_assoc | progress simpl]. done.
Qed.

Lemma pad_add_special_tokens_content self tensor width :
  sep_token self ∉ tensor →
  segment_content self (pad_add_special_tokens self tensor width) = tensor.
Proof.
  intros Hsep. rewrite pad_add_special_tokens_unfold, assembled_split.
  unfold segment_content.
  rewrite drop_app_length'
    by (simpl; rewrite length_app, length_mem_token_ids; simpl; lia).
  by apply take_until_app.
Qed.

(** With a separator distinct from CLS and taken from the original
    vocabulary, the first SEP of an assembled segment closes the header: it
    stands at index [num_mem_tokens + 1], where [segment_content] starts
    reading. *)
Lemma first_sep_closes_header self tensor width :
  cls_token self ≠ sep_token self → sep_token self < vocab_size self →
  length (take_until (sep_token self)
            (pad_add_special_tokens self tensor width))
    = (num_mem_tokens self + 1)%nat.
Proof.
  intros Hcls Hsep. rewrite pad_add_special_tokens_unfold, assembled_split.
  replace ((cls_token self :: mem_token_ids self ++ [sep_token self])
             ++ tensor ++ sep_token self :: replicate _ 0)
    with ((cls_token self :: mem_token_ids self)
             ++ sep_token self :: tensor ++ sep_token self :: replicate
                  (Z.to_nat (width - Z.of_nat (length (assembled self tensor)))) 0)
    by (simpl; by rewrite <- app_assoc).
  rewrite take_until_app.
  - simpl. rewrite length_mem_token_ids. lia.
  - intros Hin. apply elem_of_cons in Hin as [Heq|Hin]; [done|].
    unfold mem_token_ids in Hin.
    apply list_elem_of_fmap in Hin as (i & Hi & _). lia.
Qed.

Lemma pad_add_special_tokens_length self tensor :
  Z.of_nat (length tensor) ≤ segment_size self →
  Z.of_nat (length (pad_add_special_tokens self tensor (input_size self)))
    = input_size self.
Proof.
  unfold segment_size. intros Hlen.
  rewrite pad_add_special_tokens_unfold, length_app, length_replicate.
  rewrite length_assembled. lia.
Qed.

Lemma pad_add_special_tokens_memory self tensor width (i : nat) :
  (i < num_mem_tokens self)%nat →
  pad_add_special_tokens self tensor width !! S i
    = Some (vocab_size self + Z.of_nat i).
Proof.
  intros Hi. rewrite pad_add_special_tokens_unfold. unfold assembled.
  simpl. rewrite <- app_assoc, lookup_app_l by (rewrite length_mem_token_ids; lia).
  unfold mem_token_ids. rewrite list_lookup_fmap, lookup_seq_lt by done.
  done.
Qed.

(** ** Right alignment *)

Lemma rev_item_lookup {A} (s : list A) (i : nat) :
  Py.rev_item s i = reverse s !! i.
Proof.
  unfold Py.rev_item. case_decide; [done|].
  symmetry. apply lookup_ge_None. rewrite length_reverse. lia.
Qed.

Lemma omap_reverse {A B} (f : A → option B) (l : list A) :
  omap f (reverse l) = reverse (omap f l).
Proof.
  induction l as [|x l IH]; [done|].
  rewrite reverse_cons, omap_app, IH. simpl.
  destruct (f x); simpl; [by rewrite reverse_cons | by rewrite app_nil_r].
Qed.

Lemma omap_fmap_compose {A B C} (f : B → option C) (g : A → B) (l : list A) :
  omap f (g <$> l) = omap (fun x => f (g x)) l.
Proof.
  induction l as [|x l IH]; [done|]. simpl.
  destruct (f (g x)); [f_equal|]; apply IH.
Qed.

Lemma omap_lookup_seq {A} (l : list A) (n : nat) :
  omap (fun i => l !! i) (seq 0 n) = take n l.
Proof.
  revert n. induction l as [|x l IH]; intros n.
  - rewrite take_nil. by induction (seq 0 n).
  - destruct n as [|n]; [done|].
    rewrite <- cons_seq, <- fmap_S_seq. simpl. f_equal.
    by rewrite omap_fmap_compose, <- IH.
Qed.

(** The segments of a batch element, read back from the aligned slots, are
    its last [max_n] chunks in their original order. *)
Lemma slots_of_right_align {A} (max_n : Z) (segmented_batch : list (list A))
    (b : nat) (s : list A) :
  segmented_batch !! b = Some s →
  slots_of b (right_align max_n segmented_batch)
    = drop (length s - Z.to_nat max_n) s.
Proof.
  intros Hb. unfold slots_of, right_align, Py.range.
  rewrite omap_reverse.
  assert (omap (fun slot : list (option A) => mjoin (slot !! b))
            (map (fun i => map (fun s0 => Py.rev_item s0 i) segmented_batch)
                 (seq 0 (Z.to_nat max_n)))
          = omap (fun i => reverse s !! i) (seq 0 (Z.to_nat max_n))) as ->.
  { induction (seq 0 (Z.to_nat max_n)) as [|i is' IH]; [done|].
    simpl. rewrite list_lookup_fmap, Hb. simpl.
    rewrite rev_item_lookup. destruct (reverse s !! i); simpl; [f_equal|]; apply IH. }
  rewrite omap_lookup_seq, reverse_take, reverse_involutive, length_reverse.
  done.
Qed.

Lemma reverse_map_seq {A} (f : nat → A) (n : nat) :
  reverse (map f (seq 0 n)) = map (fun i => f (n - 1 - i)%nat) (seq 0 n).
Proof.
  apply list_eq. intros i.
  destruct (decide (i < n)%nat) as [Hi|Hi].
  - rewrite reverse_lookup by (by rewrite length_map, length_seq).
    rewrite length_map, length_seq, !list_lookup_fmap.
    rewrite !lookup_seq_lt by lia. simpl. do 2 f_equal. lia.
  - rewrite !lookup_ge_None_2; [done | |].
    + rewrite length_map, length_seq. lia.
    + rewrite length_reverse, length_map, length_seq. lia.
Qed.

Lemma map_seq_ext {A} (f g : nat → A) (n : nat) :
  (∀ i, (i < n)%nat → f i = g i) → map f (seq 0 n) = map g (seq 0 n).
Proof.
  intros Hfg. apply list_fmap_ext. intros k i Hi.
  apply lookup_seq in Hi as [-> Hlt]. by apply Hfg.
Qed.

Lemma right_align_is_direct {A} (max_n : Z) (segmented_batch : list (list A)) :
  right_align max_n segmented_batch = right_align_direct max_n segmented_batch.
Proof.
  unfold right_align, right_align_direct, Py.range.
  rewrite reverse_map_seq. apply map_seq_ext. intros i Hi.
  apply list_fmap_ext. intros _ s _.
  rewrite rev_item_lookup.
  destruct (decide (Z.to_nat max_n - 1 - i < length s)%nat) as [Hk|Hk].
  - rewrite reverse_lookup by done.
    rewrite decide_True by lia. f_equal. lia.
  - rewrite decide_False by lia.
    apply lookup_ge_None. rewrite length_reverse. lia.
Qed.

(** ** Segmentation of one sequence *)

Lemma truncated_no_sep self seq x :
  x ∈ truncated self seq → x ≠ sep_token self.
Proof.
  unfold truncated, Py.slice_to, strip_special. intros Hx.
  assert (x ∈ List.filter (keep_token self) seq) as Hin.
  { destruct (0 <=? _); eapply subseteq_take; eauto. }
  apply list_elem_of_In, filter_In in Hin as [_ Hkeep].
  unfold keep_token in Hkeep.
  apply andb_prop in Hkeep as [_ Hsep].
  apply negb_true_iff, Z.eqb_neq in Hsep. done.
Qed.

Lemma segment_sequence_Ok self seq segs :
  segment_sequence self seq = Ok segs →
  0 < segment_size self ∧ truncated self seq ≠ [] ∧
  ∃ chunks,
    segs = map (fun t => pad_add_special_tokens self t (input_size self)) chunks
    ∧ concat chunks = truncated self seq
    ∧ Z.of_nat (length chunks)
        = Py.ceil_div (Z.of_nat (length (truncated self seq))) (segment_size self)
    ∧ Forall (fun c => Z.of_nat (length c) ≤ segment_size self) chunks.
Proof.
  unfold segment_sequence. fold (truncated self seq). intros H.
  inv_bind H. inv_bind H. inversion H; subst; clear H.
  unfold Py.math_ceil_div in Ha.
  destruct (Z.eqb_spec (segment_size self) 0) as [|Hs0]; [discriminate|].
  inversion Ha; subst; clear Ha.
  pose proof (torch_chunk_Ok _ _ _ Ha0) as Hn.
  assert (Hs : 0 < segment_size self).
  { destruct (Z.lt_trichotomy (segment_size self) 0) as [Hneg|[?|?]]; [|done..].
    pose proof (ceil_div_neg_divisor (Z.of_nat (length (truncated self seq)))
                  (segment_size self) ltac:(lia) Hneg). lia. }
  assert (Hlen : (0 < length (truncated self seq))%nat).
  { destruct (truncated self seq); simpl in *; [|lia].
    rewrite ceil_div_0 in Hn. lia. }
  split; [done|]. split; [by destruct (truncated self seq)|].
  destruct (torch_chunk_ceil (truncated self seq) _ Hs Hlen)
    as (chunks & Hch & Hcat & Hcount & Hw).
  rewrite Hch in Ha0. inversion Ha0; subst. eauto.
Qed.

Lemma segment_sequence_total self seq :
  0 < segment_size self → truncated self seq ≠ [] →
  ∃ segs, segment_sequence self seq = Ok segs.
Proof.
  intros Hs Ht. unfold segment_sequence. fold (truncated self seq).
  unfold Py.math_ceil_div.
  destruct (Z.eqb_spec (segment_size self) 0) as [|_]; [lia|]. simpl.
  destruct (torch_chunk_ceil (truncated self seq) _ Hs) as (chunks & -> & _).
  { destruct (truncated self seq); simpl; [done | lia]. }
  simpl. eauto.
Qed.

(** A row with no content token aborts the segmentation. *)
Lemma segment_sequence_empty self seq :
  segment_size self ≠ 0 → truncated self seq = [] →
  segment_sequence self seq = Raise RuntimeError.
Proof.
  intros Hs Ht. unfold segment_sequence. fold (truncated self seq).
  rewrite Ht. unfold Py.math_ceil_div.
  destruct (Z.eqb_spec (segment_size self) 0) as [|_]; [lia|].
  change (Z.of_nat (length [])) with 0. by rewrite ceil_div_0.
Qed.

Lemma contents_of_segments self seq chunks :
  concat chunks = truncated self seq →
  map (segment_content self)
      (map (fun t => pad_add_special_tokens self t (input_size self)) chunks)
    = chunks.
Proof.
  intros Hcat. rewrite <- list_fmap_compose.
  rewrite <- (list_fmap_id chunks) at 2.
  apply list_fmap_ext. intros i c Hc. simpl.
  apply pad_add_special_tokens_content. intros Hsep.
  apply (truncated_no_sep self seq (sep_token self)); [|done].
  rewrite <- Hcat. apply list_elem_of_In, in_concat.
  exists c. split; apply list_elem_of_In; [|done].
  by eapply list_elem_of_lookup_2.
Qed.

(** ** Segmentation of a batch *)

Lemma pad_and_segment_Ok self input_ids segmented :
  pad_and_segment self input_ids = Ok segmented →
  ∃ segmented_batch,
    for_each (segment_sequence self) input_ids = Ok segmented_batch
    ∧ segmented = right_align (max_n_segments self) segmented_batch.
Proof.
  unfold pad_and_segment. intros H. inv_bind H. inversion H; subst. eauto.
Qed.

Lemma pad_and_segment_total self input_ids :
  0 < segment_size self → 1 ≤ max_n_segments self →
  Forall (fun seq => strip_special self seq ≠ []) input_ids →
  ∃ segmented, pad_and_segment self input_ids = Ok segmented.
Proof.
  intros Hs Hm Hrows. unfold pad_and_segment.
  destruct (for_each_total (segment_sequence self) input_ids) as [sb ->].
  - eapply Forall_impl; [exact Hrows|]. intros seq Hseq. simpl in Hseq.
    apply segment_sequence_total; [done|].
    unfold truncated, Py.slice_to.
    destruct (Z.leb_spec 0 (segment_size self * max_n_segments self)); [|nia].
    destruct (strip_special self seq); [done|].
    destruct (Z.to_nat (segment_size self * max_n_segments self)) eqn:E; [nia|done].
  - simpl. eauto.
Qed.

Lemma length_truncated self seq :
  0 < segment_size self → 0 ≤ max_n_segments self →
  Z.of_nat (length (truncated self seq))
    = Z.min (Z.of_nat (length (strip_special self seq)))
            (segment_size self * max_n_segments self).
Proof.
  intros Hs Hm. unfold truncated, Py.slice_to.
  destruct (Z.leb_spec 0 (segment_size self * max_n_segments self)); [|nia].
  rewrite length_take. lia.
Qed.

(** The chunks of one row never outnumber the slots. *)
Lemma chunk_count_le_slots self seq :
  0 < segment_size self → 0 ≤ max_n_segments self →
  Py.ceil_div (Z.of_nat (length (truncated self seq))) (segment_size self)
    ≤ max_n_segments self.
Proof.
  intros Hs Hm. pose proof (length_truncated self seq Hs Hm) as Hlen.
  pose proof (ceil_div_bounds (Z.of_nat (length (truncated self seq)))
                (segment_size self) Hs). nia.
Qed.

(** The segments of row [b], read back from the slots, are the assembled
    chunks of that row, as many as fit in [max_n_segments] slots. *)
Lemma slots_of_pad_and_segment self input_ids segmented (b : nat) seq :
  pad_and_segment self input_ids = Ok segmented →
  input_ids !! b = Some seq →
  0 < segment_size self ∧ truncated self seq ≠ [] ∧
  ∃ chunks,
    concat chunks = truncated self seq
    ∧ Z.of_nat (length chunks)
        = Py.ceil_div (Z.of_nat (length (truncated self seq))) (segment_size self)
    ∧ Forall (fun c => Z.of_nat (length c) ≤ segment_size self) chunks
    ∧ slots_of b segmented
        = drop (length chunks - Z.to_nat (max_n_segments self))
            (map (fun t => pad_add_special_tokens self t (input_size self)) chunks).
Proof.
  intros Hseg Hb.
  apply pad_and_segment_Ok in Hseg as (sb & Hsb & ->).
  destruct (for_each_lookup _ _ _ _ _ Hsb Hb) as (segs & Hsegs & Hlook).
  apply segment_sequence_Ok in Hsegs as (Hs & Hne & chunks & -> & Hcat & Hn & Hw).
  split; [done|]. split; [done|]. exists chunks.
  repeat split; try done.
  rewrite (slots_of_right_align _ _ _ _ Hlook). by rewrite length_map.
Qed.

(** C1.  Round-trip law of [pad_and_segment]: whenever the segmentation of a
    batch returns, the content portions of a row's non-absent slots, joined in
    slot order, are the row stripped of pad/cls/sep ids and cut to at most
    [segment_size * max_n_segments] tokens.  The segmentation does return on
    every batch whose rows keep at least one content token. *)
Theorem pad_and_segment_round_trip (self : RMTEncoder) (input_ids : list (list Z)) :
  (∀ segmented (b : nat) seq,
     pad_and_segment self input_ids = Ok segmented →
     input_ids !! b = Some seq →
     concat (map (segment_content self) (slots_of b segmented))
       = take (Z.to_nat (segment_size self * max_n_segments self))
              (strip_special self seq))
  ∧ (0 < segment_size self → 1 ≤ max_n_segments self →
     Forall (fun seq => strip_special self seq ≠ []) input_ids →
     ∃ segmented, pad_and_segment self input_ids = Ok segmented).
Proof.
  split; [|apply pad_and_segment_total].
  intros segmented b seq Hseg Hb.
  destruct (slots_of_pad_and_segment _ _ _ _ _ Hseg Hb)
    as (Hs & Hne & chunks & Hcat & Hn & _ & ->).
  destruct (Z.le_gt_cases 0 (max_n_segments self)) as [Hm|Hm].
  - pose proof (chunk_count_le_slots self seq Hs Hm) as Hle.
    replace (length chunks - Z.to_nat (max_n_segments self))%nat with 0%nat by lia.
    rewrite drop_0, (contents_of_segments self seq) by done.
    rewrite Hcat. unfold truncated, Py.slice_to.
    by destruct (Z.leb_spec 0 (segment_size self * max_n_segments self)); [|nia].
  - rewrite Z2Nat.nonpos, Nat.sub_0_r by lia.
    rewrite <- (length_map (fun t => pad_add_special_tokens self t (input_size self))).
    rewrite drop_all. simpl.
    rewrite Z2Nat.nonpos by nia. done.
Qed.

Lemma pad_and_segment_round_trip_witness :
  ∃ segmented,
    pad_and_segment Examples.bert [Examples.seqA; Examples.seqB] = Ok segmented
    ∧ concat (map (segment_content Examples.bert) (slots_of 0 segmented))
        = [11; 12; 13; 14; 15; 16; 17; 18; 19; 20; 21; 22]
    ∧ concat (map (segment_content Examples.bert) (slots_of 1 segmented))
        = [31; 32; 33].
Proof.
  destruct (pad_and_segment_round_trip Examples.bert
              [Examples.seqA; Examples.seqB]) as [Hrt Htot].
  destruct Htot as [segmented Hseg].
  - reflexivity.
  - vm_compute. discriminate.
  - repeat constructor; vm_compute; discriminate.
  - exists segmented. split; [exact Hseg|]. split.
    + exact (Hrt segmented 0%nat Examples.seqA Hseg eq_refl).
    + exact (Hrt segmented 1%nat Examples.seqB Hseg eq_refl).
Defined.

(** The segmented batch always has [max_n_segments] slots, each as wide as
    the batch. *)
Lemma pad_and_segment_shape self input_ids segmented :
  pad_and_segment self input_ids = Ok segmented →
  length segmented = Z.to_nat (max_n_segments self)
  ∧ Forall (fun slot => length slot = length input_ids) segmented.
Proof.
  intros Hseg. apply pad_and_segment_Ok in Hseg as (sb & Hsb & ->).
  unfold right_align, Py.range. split.
  - by rewrite length_reverse, length_map, length_seq.
  - apply Forall_reverse, Forall_fmap, Forall_forall. intros i _. simpl.
    rewrite length_map. by eapply for_each_length.
Qed.

(** C2 (as amended).  On a batch whose rows all keep at least one content
    token, [pad_and_segment] returns [max_n_segments] slots, and a row with
    [L >= 1] content tokens is present in exactly
    [ceil(min(L, segment_size*max_n_segments) / segment_size)] of them. *)
Theorem pad_and_segment_slot_count (self : RMTEncoder) (input_ids : list (list Z)) :
  0 < segment_size self → 1 ≤ max_n_segments self →
  Forall (fun seq => strip_special self seq ≠ []) input_ids →
  ∃ segmented,
    pad_and_segment self input_ids = Ok segmented
    ∧ length segmented = Z.to_nat (max_n_segments self)
    ∧ ∀ (b : nat) seq, input_ids !! b = Some seq →
        Z.of_nat (length (slots_of b segmented))
          = Py.ceil_div
              (Z.min (Z.of_nat (length (strip_special self seq)))
                     (segment_size self * max_n_segments self))
              (segment_size self).
Proof.
  intros Hs Hm Hrows.
  destruct (pad_and_segment_total self input_ids Hs Hm Hrows) as [segmented Hseg].
  exists segmented. split; [done|].
  split; [by apply pad_and_segment_shape in Hseg as [? _]|].
  intros b seq Hb.
  destruct (slots_of_pad_and_segment _ _ _ _ _ Hseg Hb)
    as (_ & _ & chunks & _ & Hn & _ & ->).
  pose proof (chunk_count_le_slots self seq Hs ltac:(lia)) as Hle.
  rewrite length_drop, length_map.
  rewrite <- length_truncated by lia. lia.
Qed.

Lemma pad_and_segment_slot_count_witness :
  ∃ segmented,
    pad_and_segment Examples.bert [Examples.seqA; Examples.seqB] = Ok segmented
    ∧ length (slots_of 0 segmented) = 3%nat
    ∧ length (slots_of 1 segmented) = 1%nat.
Proof.
  destruct (pad_and_segment_slot_count Examples.bert
              [Examples.seqA; Examples.seqB]) as (segmented & Hseg & _ & Hcount).
  - reflexivity.
  - vm_compute. discriminate.
  - repeat constructor; vm_compute; discriminate.
  - exists segmented. split; [exact Hseg|]. split.
    + apply Nat2Z.inj. exact (Hcount 0%nat Examples.seqA eq_refl).
    + apply Nat2Z.inj. exact (Hcount 1%nat Examples.seqB eq_refl).
Defined.

(** A row without content tokens ([L = 0]) does not give zero non-absent
    slots: the whole segmentation aborts in [torch.chunk(seq, 0)]. *)
Lemma pad_and_segment_empty_row_raises :
  length (strip_special Examples.bert Examples.seqE) = 0%nat
  ∧ pad_and_segment Examples.bert [Examples.seqA; Examples.seqE] = Raise RuntimeError
  ∧ ¬ ∃ segmented,
        pad_and_segment Examples.bert [Examples.seqA; Examples.seqE] = Ok segmented
        ∧ Z.of_nat (length (slots_of 1 segmented))
            = Py.ceil_div
                (Z.min (Z.of_nat (length (strip_special Examples.bert Examples.seqE)))
                       (segment_size Examples.bert * max_n_segments Examples.bert))
                (segment_size Examples.bert).
Proof.
  split; [reflexivity|]. split; [reflexivity|].
  intros (segmented & Hseg & _). vm_compute in Hseg. discriminate.
Qed.

(** The same holds for every configuration: an all-special row anywhere in a
    batch whose earlier rows segment well raises [RuntimeError]. *)
Lemma pad_and_segment_empty_row self seq :
  segment_size self ≠ 0 → truncated self seq = [] →
  pad_and_segment self [seq] = Raise RuntimeError.
Proof.
  intros Hs Ht. unfold pad_and_segment. simpl.
  by rewrite segment_sequence_empty.
Qed.

(** C8.  The double reversal of lines 113-114 is the direct index
    arithmetic: the slots are those of [right_align_direct], so that for a row
    with [n_seg] assembled chunks slot [i] is populated iff
    [i >= max_n_segments - n_seg], and then holds chunk
    [i - (max_n_segments - n_seg)]. *)
Theorem right_align_by_index (self : RMTEncoder) (input_ids : list (list Z))
    (segmented : list (list (option (list Z)))) :
  pad_and_segment self input_ids = Ok segmented →
  ∃ segmented_batch,
    for_each (segment_sequence self) input_ids = Ok segmented_batch
    ∧ segmented = right_align_direct (max_n_segments self) segmented_batch
    ∧ ∀ (i b : nat) chunks,
        (i < Z.to_nat (max_n_segments self))%nat →
        segmented_batch !! b = Some chunks →
        let first := max_n_segments self - Z.of_nat (length chunks) in
        ∃ slot entry,
          segmented !! i = Some slot ∧ slot !! b = Some entry
          ∧ (is_Some entry ↔ first ≤ Z.of_nat i)
          ∧ (first ≤ Z.of_nat i → entry = chunks !! Z.to_nat (Z.of_nat i - first)).
Proof.
  intros Hseg. apply pad_and_segment_Ok in Hseg as (sb & Hsb & ->).
  exists sb. split; [done|]. split; [apply right_align_is_direct|].
  intros i b chunks Hi Hb first. rewrite right_align_is_direct.
  unfold right_align_direct, Py.range.
  eexists _, _. split.
  { rewrite list_lookup_fmap, lookup_seq_lt by done. reflexivity. }
  split.
  { rewrite list_lookup_fmap, Hb. reflexivity. }
  simpl. fold first. case_decide as Hfirst.
  - split; [|done]. split; [done|]. intros _.
    apply lookup_lt_is_Some. lia.
  - split; [|lia]. split; [by intros [? ?] | lia].
Qed.

Lemma right_align_by_index_witness :
  ∃ segmented segmented_batch,
    pad_and_segment Examples.bert [Examples.seqA; Examples.seqB] = Ok segmented
    ∧ for_each (segment_sequence Examples.bert) [Examples.seqA; Examples.seqB]
        = Ok segmented_batch
    ∧ segmented = right_align_direct 3 segmented_batch
    ∧ map (map is_tensor) segmented
        = [[true; false]; [true; false]; [true; true]].
Proof.
  eexists.
  destruct (right_align_by_index Examples.bert [Examples.seqA; Examples.seqB]
              _ eq_refl) as (sb & Hsb & Heq & _).
  exists sb. split; [reflexivity|]. split; [exact Hsb|].
  split; [exact Heq | reflexivity].
Defined.

(** ** The scenario [segment_size = 5], [max_n_segments = 3] *)

Lemma segment_sequence_12_of_5 self seq :
  segment_size self = 5 → max_n_segments self = 3 →
  length (strip_special self seq) = 12%nat →
  segment_sequence self seq =
    Ok (map (fun t => pad_add_special_tokens self t (input_size self))
          [take 4 (strip_special self seq);
           take 4 (drop 4 (strip_special self seq));
           take 4 (drop 8 (strip_special self seq))]).
Proof.
  intros Hs Hm Hlen. unfold segment_sequence, Py.slice_to.
  rewrite Hs, Hm. simpl. rewrite take_ge by lia.
  rewrite Hlen. simpl. unfold Py.torch_chunk, Py.torch_split.
  rewrite Hlen. reflexivity.
Qed.

Lemma segment_sequence_3_of_5 self seq :
  segment_size self = 5 → max_n_segments self = 3 →
  length (strip_special self seq) = 3%nat →
  segment_sequence self seq =
    Ok (map (fun t => pad_add_special_tokens self t (input_size self))
          [take 3 (strip_special self seq)]).
Proof.
  intros Hs Hm Hlen. unfold segment_sequence, Py.slice_to.
  rewrite Hs, Hm. simpl. rewrite take_ge by lia.
  rewrite Hlen. simpl. unfold Py.torch_chunk, Py.torch_split.
  rewrite Hlen. reflexivity.
Qed.

(** C4 (as amended).  With [segment_size = 5] and [max_n_segments = 3], a
    batch of a row A with 12 content tokens and a row B with 3: A is cut into
    3 chunks of 4 tokens each ([torch.chunk] balances the chunks), B into one
    chunk of 3; slots 0 and 1 are absent for B and present for A, slot 2 is
    present for both. *)
Theorem scenario_two_rows (self : RMTEncoder) (A B : list Z) :
  segment_size self = 5 → max_n_segments self = 3 →
  length (strip_special self A) = 12%nat →
  length (strip_special self B) = 3%nat →
  ∃ segmented,
    pad_and_segment self [A; B] = Ok segmented
    ∧ map (fun seg => length (segment_content self seg)) (slots_of 0 segmented)
        = [4; 4; 4]%nat
    ∧ map (fun seg => length (segment_content self seg)) (slots_of 1 segmented)
        = [3]%nat
    ∧ map (map is_tensor) segmented
        = [[true; false]; [true; false]; [true; true]].
Proof.
  intros Hs Hm HA HB.
  pose proof (segment_sequence_12_of_5 self A Hs Hm HA) as HsegA.
  pose proof (segment_sequence_3_of_5 self B Hs Hm HB) as HsegB.
  eexists. split.
  { unfold pad_and_segment. simpl. rewrite HsegA, HsegB, Hm. reflexivity. }
  assert (Hsep : ∀ seq l, l ⊆ strip_special self seq → sep_token self ∉ l).
  { intros seq l Hl Hin. apply Hl, list_elem_of_In, filter_In in Hin as [_ Hkeep].
    unfold keep_token in Hkeep. rewrite Z.eqb_refl, andb_false_r in Hkeep.
    discriminate. }
  pose proof (subseteq_take 4 (strip_special self A)) as H0.
  pose proof (subseteq_drop 4 (strip_special self A)) as H4.
  pose proof (subseteq_drop 8 (strip_special self A)) as H8.
  pose proof (subseteq_take 4 (drop 4 (strip_special self A))) as H4'.
  pose proof (subseteq_take 4 (drop 8 (strip_special self A))) as H8'.
  pose proof (subseteq_take 3 (strip_special self B)) as HB0.
  split; [|split; [|reflexivity]].
  - change ([length (segment_content self
               (pad_add_special_tokens self (take 4 (strip_special self A))
                  (input_size self)));
             length (segment_content self
               (pad_add_special_tokens self
                  (take 4 (drop 4 (strip_special self A))) (input_size self)));
             length (segment_content self
               (pad_add_special_tokens self
                  (take 4 (drop 8 (strip_special self A))) (input_size self)))]
            = [4; 4; 4]%nat).
    rewrite !pad_add_special_tokens_content
      by (apply (Hsep A); set_solver).
    rewrite !length_take, !length_drop, HA. reflexivity.
  - change ([length (segment_content self
               (pad_add_special_tokens self (take 3 (strip_special self B))
                  (input_size self)))] = [3]%nat).
    rewrite pad_add_special_tokens_content by (apply (Hsep B); set_solver).
    rewrite length_take, HB. reflexivity.
Qed.

Lemma scenario_two_rows_witness :
  ∃ segmented,
    pad_and_segment Examples.bert [Examples.seqA; Examples.seqB] = Ok segmented
    ∧ map (fun seg => length (segment_content Examples.bert seg))
          (slots_of 0 segmented) = [4; 4; 4]%nat
    ∧ map (map is_tensor) segmented
        = [[true; false]; [true; false]; [true; true]].
Proof.
  destruct (scenario_two_rows Examples.bert Examples.seqA Examples.seqB)
    as (segmented & Hseg & HA & _ & Hmask); try reflexivity.
  exists segmented. auto.
Defined.

(** The chunks of A are not of sizes 5, 5, 2. *)
Lemma scenario_chunks_not_5_5_2 :
  ∃ segmented,
    pad_and_segment Examples.bert [Examples.seqA; Examples.seqB] = Ok segmented
    ∧ map (segment_content Examples.bert) (slots_of 0 segmented)
        = [[11; 12; 13; 14]; [15; 16; 17; 18]; [19; 20; 21; 22]]
    ∧ map (fun seg => length (segment_content Examples.bert seg))
          (slots_of 0 segmented) ≠ [5; 5; 2]%nat.
Proof.
  eexists. split; [reflexivity|]. split; [reflexivity|].
  vm_compute. discriminate.
Qed.

(** ** Segment assembly against its specification *)

(** Where the tokenizer's pad id is 0 the code pads as specified. *)
Lemma pad_add_special_tokens_pad_id_0 self tensor width :
  pad_token_id self = 0 →
  pad_add_special_tokens self tensor width
    = pad_add_special_tokens_spec self tensor width.
Proof.
  intros Hpad. rewrite pad_add_special_tokens_unfold.
  unfold pad_add_special_tokens_spec. by rewrite Hpad.
Qed.

(** Memory positions hold the memory token ids, which lie above the original
    vocabulary and so differ from any pad id taken from it. *)
Lemma memory_position_not_pad self tensor width (p : nat) :
  pad_token_id self < vocab_size self →
  p ∈ memory_position self →
  ∃ t, pad_add_special_tokens self tensor width !! p = Some t
       ∧ t ≠ pad_token_id self.
Proof.
  intros Hpad Hp. unfold memory_position in Hp.
  apply elem_of_seq in Hp as [H1 Hp]. destruct p as [|i]; [lia|].
  eexists. split; [apply pad_add_special_tokens_memory; lia | lia].
Qed.

(** C3, at the failing input.  Over a tokenizer whose pad id is 1, the
    segment of the chunk [31, 32, 33] is filled up with zeros, not with the
    pad id as specified, and [get_attention_mask] keeps the fill visible. *)
Theorem pad_add_special_tokens_fills_with_zero :
  let segment :=
    pad_add_special_tokens Examples.roberta [31; 32; 33]
      (input_size Examples.roberta) in
  segment = [0; 1000; 1001; 2; 31; 32; 33; 2; 0; 0]
  ∧ pad_add_special_tokens_spec Examples.roberta [31; 32; 33]
      (input_size Examples.roberta) = [0; 1000; 1001; 2; 31; 32; 33; 2; 1; 1]
  ∧ get_attention_mask Examples.roberta [segment]
      = [[1; 1; 1; 1; 1; 1; 1; 1; 1; 1]].
Proof. repeat split. Qed.

(** ** Masks and stacking *)

Lemma count_true_0 (slot : list (option (list Z))) :
  Torch.count_true (map is_tensor slot) = 0%nat ↔ Forall (.= None) slot.
Proof.
  unfold Torch.count_true. induction slot as [|[t|] slot IH]; simpl.
  - split; [constructor | done].
  - split; [lia | by inversion 1].
  - rewrite IH. split; [by constructor | by inversion 1].
Qed.

Lemma existsb_is_tensor (slot : list (option (list Z))) :
  existsb is_tensor slot = false ↔ Forall (.= None) slot.
Proof.
  induction slot as [|[t|] slot IH]; simpl.
  - split; [constructor | done].
  - split; [done | by inversion 1].
  - rewrite IH. split; [by constructor | by inversion 1].
Qed.

Lemma stack_Ok slot rows :
  Torch.stack slot = Ok rows → slot = map Some rows ∧ rows ≠ [].
Proof.
  unfold Torch.stack. intros H. inv_bind H. split.
  - assert (slot = map Some a) as ->.
    { clear H. revert a Ha. induction slot as [|[t|] slot IH]; intros a Ha;
        simpl in Ha.
      - by inversion Ha.
      - inv_bind Ha. inversion Ha; subst. simpl. f_equal. by apply IH.
      - discriminate. }
    destruct a; [done|]. by destruct (forallb _ _); inversion H.
  - destruct a; [done|]. by destruct (forallb _ _); inversion H.
Qed.

(** Stacking a slot that holds an absent entry is a type error. *)
Lemma stack_absent slot : None ∈ slot → Torch.stack slot = Raise TypeError.
Proof.
  intros Hin. unfold Torch.stack.
  assert (for_each (fun o : option (list Z) =>
                      match o with Some t => Ok t | None => Raise TypeError end)
                   slot = Raise TypeError) as ->; [|done].
  induction slot as [|[t|] slot IH]; simpl.
  - by inversion Hin.
  - rewrite IH; [done|]. by inversion Hin.
  - done.
Qed.

Lemma select_all_true {A} (t : list A) (mask : list bool) :
  Forall (.= true) mask → length mask = length t → Torch.select mask t = t.
Proof.
  intros Hmask. revert t. induction Hmask as [|m mask -> _ IH]; intros [|x t] Hlen;
    simpl in *; try done. f_equal. apply IH. lia.
Qed.

Lemma scatter_length {A} (mask : list bool) (t src : list A) :
  length (Torch.scatter mask t src) = length t.
Proof.
  revert t src. induction mask as [|m mask IH]; intros [|x t] src; try done.
  - by destruct m.
  - destruct m; simpl; [destruct src|]; simpl; by rewrite ?IH.
Qed.

(** Rows outside the mask keep their value. *)
Lemma scatter_inactive {A} (mask : list bool) (t src : list A) (b : nat) :
  mask !! b = Some false → Torch.scatter mask t src !! b = t !! b.
Proof.
  revert t src b. induction mask as [|m mask IH]; intros [|x t] src b Hb; try done.
  - by destruct m.
  - destruct b as [|b]; simpl in Hb.
    + by inversion Hb; subst.
    + destruct m; simpl; [destruct src|]; simpl; try done; by apply IH.
Qed.

Lemma scatter_rows {A} (P : A → Prop) (mask : list bool) (t src : list A) :
  Forall P t → Forall P src → Forall P (Torch.scatter mask t src).
Proof.
  revert t src. induction mask as [|m mask IH]; intros [|x t] src Ht Hsrc;
    try done.
  - by destruct m.
  - inversion Ht; subst. destruct m; simpl.
    + destruct src; [done|]. inversion Hsrc; subst. constructor; [done|].
      by apply IH.
    + constructor; [done|]. by apply IH.
Qed.

Lemma mask_assign_Ok {A} (P : A → Prop) (mask : list bool) (t src rows : list A) :
  Torch.mask_assign mask t src = Ok rows →
  length rows = length t
  ∧ (Forall P t → Forall P src → Forall P rows)
  ∧ ∀ b : nat, mask !! b = Some false → rows !! b = t !! b.
Proof.
  unfold Torch.mask_assign. intros H.
  destruct (negb _); [discriminate|].
  destruct (_ =? _)%nat.
  - inversion H; subst. split; [apply scatter_length|].
    split; [apply scatter_rows | apply scatter_inactive].
  - destruct src as [|v [|? ?]]; try discriminate. inversion H; subst.
    split; [apply scatter_length|].
    split; [|apply scatter_inactive].
    intros Ht Hv. apply scatter_rows; [done|].
    apply Forall_replicate. by inversion Hv.
Qed.

(** ** One slot of the forward pass *)

Section ForwardProperties.
Context `{M : BaseModel}.
Implicit Types (self : RMTEncoder) (kw : kwargs) (st : loop_state).
Implicit Types (slot : list (option (list Z))).

Lemma mem_rows_memory_at self n i st :
  mem_rows (memory_at self n i st) = mem_rows (st_memory st).
Proof. unfold memory_at. by destruct (detach_here _ _ _). Qed.

(** A slot without any segment is passed over. *)
Lemma segment_step_skip self n kw i slot st :
  Forall (.= None) slot →
  segment_step self n kw i slot st =
    Ok {| st_memory := memory_at self n i st; st_losses := st_losses st;
          st_out := st_out st; st_calls := st_calls st |}.
Proof.
  intros Hslot. apply count_true_0 in Hslot.
  unfold segment_step. by rewrite Hslot.
Qed.

(** A slot in which some batch element has a segment and another has none
    aborts the call. *)
Lemma segment_step_mixed self n kw i slot st t :
  Some t ∈ slot → None ∈ slot →
  segment_step self n kw i slot st = Raise TypeError.
Proof.
  intros Hsome Hnone. unfold segment_step.
  destruct (Nat.eqb_spec (Torch.count_true (map is_tensor slot)) 0) as [H0|_].
  - apply count_true_0 in H0. rewrite Forall_forall in H0.
    by specialize (H0 _ Hsome).
  - by rewrite stack_absent.
Qed.

(** The two ways in which a slot completes. *)
Lemma segment_step_inv self n kw i slot st st' :
  segment_step self n kw i slot st = Ok st' →
  (Forall (.= None) slot
   ∧ st' = {| st_memory := memory_at self n i st; st_losses := st_losses st;
              st_out := st_out st; st_calls := st_calls st |})
  ∨ (∃ rows c loss new_memory rows',
       slot = map Some rows ∧ rows ≠ []
       ∧ call_seg c = i
       ∧ call_graph c = mem_graph (memory_at self n i st)
       ∧ forward (call_input c) = Ok (call_output c)
       ∧ call_output c !! "loss" = Some loss
       ∧ Forall (fun r => length r = num_mem_tokens self) new_memory
       ∧ Torch.mask_assign (map is_tensor slot)
           (mem_rows (st_memory st)) new_memory = Ok rows'
       ∧ st' = {| st_memory :=
                    {| mem_rows := rows';
                       mem_graph := i :: mem_graph (memory_at self n i st) |};
                  st_losses := st_losses st ++ [loss];
                  st_out := Some (call_output c);
                  st_calls := st_calls st ++ [c] |}).
Proof.
  unfold segment_step. fold (memory_at self n i st).
  destruct (Nat.eqb_spec (Torch.count_true (map is_tensor slot)) 0) as [H0|_].
  { intros H. left. split; [by apply count_true_0|]. by inversion H. }
  intros H. right.
  apply rbind_Ok in H as (stacked & Hstack & H).
  apply rbind_Ok in H as (input_ids & Hids & H).
  apply rbind_Ok in H as (all_labels & Hlabels & H).
  apply rbind_Ok in H as (seg_labels & Hseg_labels & H).
  apply rbind_Ok in H as (active_memory & Hactive & H).
  apply rbind_Ok in H as (embeds & Hembeds & H).
  apply rbind_Ok in H as (out & Hout & H).
  apply rbind_Ok in H as (hidden & Hhidden & H).
  apply rbind_Ok in H as (new_memory & Hnew & H).
  apply rbind_Ok in H as (rows' & Hrows & H).
  apply rbind_Ok in H as (loss & Hloss & H).
  apply stack_Ok in Hstack as [-> Hne].
  eexists stacked, {| call_seg := i; call_output := out |}, loss, new_memory, rows'.
  simpl. repeat split; try done.
  - unfold get_item in Hloss. by destruct (out !! "loss"); inversion Hloss.
  - clear -Hnew. revert new_memory Hnew.
    induction hidden as [|h hidden IH]; intros new_memory Hnew; simpl in Hnew.
    + inversion Hnew. constructor.
    + apply rbind_Ok in Hnew as (r & Hr & Hnew).
      apply rbind_Ok in Hnew as (rs & Hrs & Hnew). inversion Hnew; subst.
      constructor; [|by apply IH].
      apply for_each_length in Hr. unfold memory_position in Hr.
      by rewrite length_seq in Hr.
  - by rewrite mem_rows_memory_at in Hrows.
  - by inversion H.
Qed.

(** Whatever the slot, the memory keeps its shape, and the rows of batch
    elements that have no segment in the slot keep their value. *)
Lemma segment_step_memory self n kw i slot st st' :
  segment_step self n kw i slot st = Ok st' →
  length (mem_rows (st_memory st')) = length (mem_rows (st_memory st))
  ∧ (Forall (fun r => length r = num_mem_tokens self) (mem_rows (st_memory st)) →
     Forall (fun r => length r = num_mem_tokens self) (mem_rows (st_memory st')))
  ∧ ∀ b : nat, slot !! b = Some None →
      mem_rows (st_memory st') !! b = mem_rows (st_memory st) !! b.
Proof.
  intros H. apply segment_step_inv in H
    as [[_ ->]|(rows & c & loss & new_memory & rows' & _ & _ & _ & _ & _ & _
                & Hnew & Hassign & ->)]; simpl.
  - by rewrite mem_rows_memory_at.
  - eapply (mask_assign_Ok (fun r => length r = num_mem_tokens self))
      in Hassign as (Hlen & Hshape & Hrows).
    split; [done|]. split; [auto|].
    intros b Hb. apply Hrows. by rewrite list_lookup_fmap, Hb.
Qed.

End ForwardProperties.

(** ** The loop over the slots *)

Lemma processed_from_app i slots slots' :
  processed_from i (slots ++ slots')
    = processed_from i slots ++ processed_from (i + length slots) slots'.
Proof.
  revert i. induction slots as [|slot slots IH]; intros i; simpl.
  - by rewrite Nat.add_0_r.
  - rewrite IH, <- Nat.add_succ_comm. by destruct (existsb is_tensor slot).
Qed.

Lemma processed_from_bounds i slots k :
  k ∈ processed_from i slots → (i ≤ k < i + length slots)%nat.
Proof.
  revert i. induction slots as [|slot slots IH]; intros i Hk; simpl in *.
  - by inversion Hk.
  - destruct (existsb is_tensor slot).
    + apply elem_of_cons in Hk as [->|Hk]; [lia|]. specialize (IH _ Hk). lia.
    + specialize (IH _ Hk). lia.
Qed.

Section LoopProperties.
Context `{M : BaseModel}.
Implicit Types (self : RMTEncoder) (kw : kwargs) (st : loop_state).

(** Invariants of the loop are carried from slot to slot. *)
Lemma run_segments_inv self kw (all : list (list (option (list Z))))
    (P : nat → loop_state → Prop) :
  (∀ (i : nat) slot st st',
     all !! i = Some slot →
     segment_step self (length all) kw i slot st = Ok st' →
     P i st → P (S i) st') →
  ∀ st st',
    run_segments self (length all) kw 0 all st = Ok st' →
    P 0%nat st → P (length all) st'.
Proof.
  intros Hstep.
  assert (∀ slots (i : nat) st st',
            (i ≤ length all)%nat → drop i all = slots →
            run_segments self (length all) kw i slots st = Ok st' →
            P i st → P (length all) st') as Hgen.
  { induction slots as [|slot slots IH]; intros i st st' Hle Hdrop Hrun HP.
    - simpl in Hrun. inversion Hrun; subst.
      apply (f_equal length) in Hdrop. rewrite length_drop in Hdrop.
      simpl in Hdrop. by replace (length all) with i by lia.
    - simpl in Hrun. apply rbind_Ok in Hrun as (st1 & Hst1 & Hrun).
      assert (all !! i = Some slot) as Hi.
      { rewrite <- (Nat.add_0_r i), <- lookup_drop, Hdrop. done. }
      apply lookup_lt_Some in Hi as Hlt.
      eapply (IH (S i)); [lia| |exact Hrun|eapply Hstep; eauto].
      replace (S i) with (i + 1)%nat by lia.
      by rewrite <- drop_drop, Hdrop. }
  intros st st'. apply Hgen; [lia | done].
Qed.

Lemma run_forward_Ok self input_ids kw st :
  run_forward self input_ids kw = Ok st →
  ∃ segmented,
    pad_and_segment self input_ids = Ok segmented
    ∧ run_segments self (length segmented) kw 0 segmented
        (initial_state self (length input_ids)) = Ok st.
Proof.
  unfold run_forward. intros H.
  apply rbind_Ok in H as (segmented & Hseg & H). eauto.
Qed.

(** The encoder is called once per slot that holds a segment, in slot
    order; [losses] collects the [loss] entries of its outputs and [out] is
    its latest output. *)
Lemma run_forward_trace self input_ids kw st :
  run_forward self input_ids kw = Ok st →
  ∃ segmented,
    pad_and_segment self input_ids = Ok segmented
    ∧ map call_seg (st_calls st) = processed_from 0 segmented
    ∧ Forall2 (fun l c => call_output c !! "loss" = Some l)
        (st_losses st) (st_calls st)
    ∧ st_out st = call_output <$> last (st_calls st)
    ∧ Forall (fun c => forward (call_input c) = Ok (call_output c))
        (st_calls st).
Proof.
  intros H. apply run_forward_Ok in H as (segmented & Hseg & Hrun).
  exists segmented. split; [done|].
  pose (P := fun (i : nat) st =>
    map call_seg (st_calls st) = processed_from 0 (take i segmented)
    ∧ Forall2 (fun l c => call_output c !! "loss" = Some l)
        (st_losses st) (st_calls st)
    ∧ st_out st = call_output <$> last (st_calls st)
    ∧ Forall (fun c => forward (call_input c) = Ok (call_output c))
        (st_calls st)).
  assert (P (length segmented) st) as HP.
  { eapply (run_segments_inv self kw segmented P); [|exact Hrun|].
    - clear. intros i slot st st' Hi Hstep (Hsegs & Hlosses & Hout & Hcalls).
      apply lookup_lt_Some in Hi as Hlt.
      unfold P. rewrite (take_S_r _ _ _ Hi), processed_from_app.
      rewrite length_take_le by lia. simpl.
      apply segment_step_inv in Hstep
        as [[Hnone ->]|(rows & c & loss & new_memory & rows' & -> & Hne & Hc
                        & _ & Hfw & Hloss & _ & _ & ->)]; simpl.
      + apply existsb_is_tensor in Hnone as ->. by rewrite app_nil_r.
      + destruct rows as [|r rows]; [done|]. simpl.
        rewrite map_app, Hsegs, last_snoc. simpl. rewrite Hc.
        repeat split; try done.
        * apply Forall2_app; [done|]. by constructor.
        * apply Forall_app. split; [done|]. by constructor.
    - unfold P. simpl. repeat split; constructor. }
  destruct HP as (Hsegs & Hrest). by rewrite firstn_all in Hsegs.
Qed.

(** The memory holds one row of [num_mem_tokens] vectors per batch element
    when the loop ends, however many slots were passed over. *)
Lemma run_forward_memory_shape self input_ids kw st :
  run_forward self input_ids kw = Ok st →
  length (mem_rows (st_memory st)) = length input_ids
  ∧ Forall (fun r => length r = num_mem_tokens self) (mem_rows (st_memory st)).
Proof.
  intros H. apply run_forward_Ok in H as (segmented & Hseg & Hrun).
  eapply (run_segments_inv self kw segmented (fun _ st =>
    length (mem_rows (st_memory st)) = length input_ids
    ∧ Forall (fun r => length r = num_mem_tokens self) (mem_rows (st_memory st))));
    [|exact Hrun|].
  - clear. intros i slot st st' _ Hstep [Hlen Hrows].
    apply segment_step_memory in Hstep as (Hlen' & Hrows' & _).
    split; [congruence | auto].
  - simpl. rewrite length_replicate. split; [done|].
    apply Forall_replicate. unfold set_memory.
    by rewrite length_map, length_mem_token_ids.
Qed.


(** With [bptt_depth = 0] the memory injected into every encoder call has
    an empty gradient graph. *)
Lemma run_forward_detached self input_ids kw st :
  bptt_depth self = 0 →
  run_forward self input_ids kw = Ok st →
  Forall (fun c => call_graph c = []) (st_calls st).
Proof.
  intros Hd H. apply run_forward_Ok in H as (segmented & Hseg & Hrun).
  eapply (run_segments_inv self kw segmented (fun _ st =>
    Forall (fun c => call_graph c = []) (st_calls st))); [|exact Hrun|].
  - intros i slot st0 st' Hi Hstep Hcalls.
    apply lookup_lt_Some in Hi.
    apply segment_step_inv in Hstep
      as [[_ ->]|(rows & c & loss & new_memory & rows' & _ & _ & _ & Hg & _ & _
                  & _ & _ & ->)]; simpl; [done|].
    apply Forall_app. split; [done|]. constructor; [|done].
    rewrite Hg. unfold memory_at, detach_here. rewrite Hd.
    destruct (Z.ltb_spec 0 (Z.of_nat (length segmented) - Z.of_nat i)); [done|lia].
  - constructor.
Qed.

(** With a negative [bptt_depth] nothing is ever cut from the graph: every
    encoder call sees all the calls before it. *)
Lemma run_forward_attached self input_ids kw st :
  bptt_depth self < 0 →
  run_forward self input_ids kw = Ok st →
  mem_graph (st_memory st) = reverse (map call_seg (st_calls st))
  ∧ ∀ (k : nat) c, st_calls st !! k = Some c →
      call_graph c = reverse (map call_seg (take k (st_calls st))).
Proof.
  intros Hd H. apply run_forward_Ok in H as (segmented & Hseg & Hrun).
  eapply (run_segments_inv self kw segmented (fun _ st =>
    mem_graph (st_memory st) = reverse (map call_seg (st_calls st))
    ∧ ∀ (k : nat) c, st_calls st !! k = Some c →
        call_graph c = reverse (map call_seg (take k (st_calls st)))));
    [|exact Hrun|].
  - intros i slot st0 st' Hi Hstep [Hgraph Hcalls].
    assert (memory_at self (length segmented) i st0 = st_memory st0) as Hmem.
    { unfold memory_at, detach_here.
      by destruct (Z.ltb_spec (-1) (bptt_depth self)); [lia|]. }
    apply segment_step_inv in Hstep
      as [[_ ->]|(rows & c & loss & new_memory & rows' & _ & _ & Hc & Hg & _ & _
                  & _ & _ & ->)]; simpl; rewrite Hmem in *; [done|].
    split.
    + rewrite map_app. cbn [map]. by rewrite reverse_snoc, Hgraph, Hc.
    + intros k c' Hk.
      destruct (decide (k < length (st_calls st0))%nat) as [Hlt|Hge].
      * rewrite lookup_app_l in Hk by done.
        rewrite take_app_le by lia. by apply Hcalls.
      * apply lookup_lt_Some in Hk as Hlen. rewrite length_app in Hlen.
        simpl in Hlen. assert (k = length (st_calls st0)) as -> by lia.
        rewrite take_app_length.
        rewrite list_lookup_middle in Hk by done. inversion Hk; subst c'.
        by rewrite Hg, Hgraph.
  - simpl. split; [done|]. by intros k c Hk.
Qed.

End LoopProperties.

(** ** Assembling the output *)

Lemma loss_key_inj (i j : nat) : loss_key i = loss_key j → i = j.
Proof.
  unfold loss_key. intros H. simpl in H. injection H as H.
  change (pretty i = pretty j) in H. by apply (inj pretty) in H.
Qed.

Lemma loss_key_not_loss (i : nat) : loss_key i ≠ "loss".
Proof. unfold loss_key. simpl. discriminate. Qed.

Section FinishProperties.
Context `{M : BaseModel}.
Implicit Types (self : RMTEncoder) (kw : kwargs) (st : loop_state).
Implicit Types (o : gmap string (value Vec Tensor)).

Lemma drop_hiddens_loss o : drop_hiddens o !! "loss" = o !! "loss".
Proof.
  unfold drop_hiddens. rewrite map_lookup_imap.
  by destruct (o !! "loss").
Qed.

Lemma set_loss_fields_None i ls out' :
  set_loss_fields i ls None = Ok out' → ls = [] ∧ out' = None.
Proof.
  destruct ls as [|l ls]; simpl; intros H.
  - by inversion H.
  - by destruct (mean_of l).
Qed.

Lemma set_loss_fields_Some i ls o out' :
  set_loss_fields i ls (Some o) = Ok out' →
  ∃ o' ts,
    out' = Some o' ∧ ls = map VTensor ts
    ∧ (∀ (k : nat) t, ts !! k = Some t →
         o' !! loss_key (i + k) = Some (VTensor (tensor_mean t)))
    ∧ (∀ key, (∀ k : nat, key ≠ loss_key (i + k)) → o' !! key = o !! key).
Proof.
  revert i o. induction ls as [|l ls IH]; intros i o H; simpl in H.
  - inversion H; subst. exists o, []. repeat split; try done.
  - apply rbind_Ok in H as (m & Hm & H).
    destruct l as [t| |]; try discriminate. inversion Hm; subst m.
    apply IH in H as (o' & ts & -> & -> & Hkeys & Hother).
    exists o', (t :: ts). repeat split; try done.
    + intros [|k] t' Hk; simpl in Hk.
      * inversion Hk; subst t'. rewrite Nat.add_0_r, Hother.
        -- by rewrite lookup_insert_eq.
        -- intros k Heq. apply loss_key_inj in Heq. lia.
      * rewrite <- Nat.add_succ_comm. by apply Hkeys.
    + intros key Hkey. rewrite Hother.
      * apply lookup_insert_ne. specialize (Hkey 0%nat).
        rewrite Nat.add_0_r in Hkey. done.
      * intros k. rewrite Nat.add_succ_comm. apply Hkey.
Qed.

Lemma sum_of_tensors ts total :
  sum_of (map VTensor ts) = Ok total → ts ≠ [] ∧ total = stack_sum ts.
Proof.
  unfold sum_of. intros H. apply rbind_Ok in H as (ts' & Hts & H).
  assert (ts' = ts) as ->.
  { clear H. revert ts' Hts. induction ts as [|t ts IH]; intros ts' Hts;
      simpl in Hts.
    - by inversion Hts.
    - apply rbind_Ok in Hts as (ts0 & Hts0 & Hts). inversion Hts; subst.
      f_equal. by apply IH. }
  destruct ts; [done|]. by inversion H.
Qed.

(** What [__call__] returns, in terms of the loop's final state. *)
Lemma finish_Ok self kw st out :
  finish self kw st = Ok out →
  ∃ o ts,
    st_out st = Some o ∧ st_losses st = map VTensor ts
    ∧ (∀ (k : nat) t, ts !! k = Some t →
         out !! loss_key k = Some (VTensor (tensor_mean t)))
    ∧ (if sum_loss self
       then ts ≠ [] ∧ out !! "loss" = Some (VTensor (stack_sum ts))
       else out !! "loss" = o !! "loss").
Proof.
  unfold finish. intros H.
  apply rbind_Ok in H as (out1 & Hout1 & H).
  apply rbind_Ok in H as (out2 & Hout2 & H).
  apply rbind_Ok in H as (out3 & Hout3 & H).
  destruct out3 as [o3|]; [|discriminate]. inversion H; subst o3; clear H.
  destruct (st_out st) as [o|] eqn:Ho.
  - assert (∃ o1, out1 = Some o1 ∧ o1 !! "loss" = o !! "loss")
      as (o1 & -> & Ho1).
    { destruct (negb _); inversion Hout1; eauto using drop_hiddens_loss. }
    apply set_loss_fields_Some in Hout2
      as (o2 & ts & -> & Hts & Hkeys & Hother).
    exists o, ts. split; [done|]. split; [done|].
    destruct (sum_loss self).
    + apply rbind_Ok in Hout3 as (total & Htotal & Hout3).
      inversion Hout3; subst out. rewrite Hts in Htotal.
      apply sum_of_tensors in Htotal as [Hne ->].
      split; [|split; [done | apply lookup_insert_eq]].
      intros k t Hk. rewrite lookup_insert_ne by (symmetry; apply loss_key_not_loss).
      by apply (Hkeys k).
    + inversion Hout3; subst out. split; [exact Hkeys|].
      rewrite Hother, Ho1; [done|]. intros k Heq.
      symmetry in Heq. by apply loss_key_not_loss in Heq.
  - exfalso. assert (out1 = None) as ->.
    { by destruct (negb _); inversion Hout1. }
    apply set_loss_fields_None in Hout2 as [Hls ->].
    destruct (sum_loss self).
    + apply rbind_Ok in Hout3 as (total & Htotal & _).
      by rewrite Hls in Htotal.
    + by inversion Hout3.
Qed.

Lemma set_loss_fields_total i ts o :
  ∃ o', set_loss_fields i (map VTensor ts) (Some o) = Ok (Some o').
Proof.
  revert i o. induction ts as [|t ts IH]; intros i o; simpl; [eauto|].
  apply IH.
Qed.

Lemma sum_of_total ts :
  ts ≠ [] → sum_of (map VTensor ts) = Ok (stack_sum ts).
Proof.
  intros Hne. unfold sum_of.
  assert (for_each (fun l : value Vec Tensor =>
                      match l with VTensor t => Ok t | _ => Raise TypeError end)
                   (map VTensor ts) = Ok ts) as ->.
  { clear Hne. induction ts as [|t ts IH]; [done|]. simpl. by rewrite IH. }
  simpl. by destruct ts.
Qed.

(** Once the encoder has been called and has given tensors as losses, the
    output is assembled without exception. *)
Lemma finish_total self kw st o ts :
  st_out st = Some o → st_losses st = map VTensor ts → ts ≠ [] →
  ∃ out, finish self kw st = Ok out.
Proof.
  intros Ho Hls Hne. unfold finish. rewrite Ho, Hls.
  destruct (negb (kw_output_hidden_states kw)); simpl.
  - destruct (set_loss_fields_total 0 ts (drop_hiddens o)) as [o' ->]. simpl.
    destruct (sum_loss self); simpl; [|eauto].
    rewrite sum_of_total by done. simpl. eauto.
  - destruct (set_loss_fields_total 0 ts o) as [o' ->]. simpl.
    destruct (sum_loss self); simpl; [|eauto].
    rewrite sum_of_total by done. simpl. eauto.
Qed.

End FinishProperties.

(** ** The forward pass returns *)

Lemma tensors_of_values `{M : BaseModel} (ls : list (value Vec Tensor)) :
  Forall (fun l => ∃ t, l = VTensor t) ls → ∃ ts, ls = map VTensor ts.
Proof.
  induction 1 as [|l ls [t ->] _ [ts ->]]; [by exists []|]. by exists (t :: ts).
Qed.

(** A forward pass whose loop completes with at least one encoder call, each
    giving a tensor as its loss, returns an output. *)
Lemma call_returns `{M : BaseModel} (self : RMTEncoder) input_ids
    (kw : kwargs) (st : loop_state) :
  run_forward self input_ids kw = Ok st →
  st_calls st ≠ [] →
  Forall (fun c => ∃ t, call_output c !! "loss" = Some (VTensor t)) (st_calls st) →
  ∃ out, __call__ self input_ids kw = Ok out.
Proof.
  intros Hrun Hne Hcalls. unfold __call__. rewrite Hrun. simpl.
  apply run_forward_trace in Hrun as (segmented & _ & _ & Hl & Hout & _).
  destruct (tensors_of_values (st_losses st)) as [ts Hts].
  { apply Forall_forall. intros l Hin.
    apply list_elem_of_lookup in Hin as [k Hk].
    destruct (Forall2_lookup_l _ _ _ _ _ Hl Hk) as (c & Hc & Hloss).
    rewrite Forall_forall in Hcalls.
    destruct (Hcalls c) as [t Ht]; [by eapply list_elem_of_lookup_2|].
    exists t. congruence. }
  destruct (last (st_calls st)) as [c|] eqn:Hlast.
  - eapply finish_total; [exact Hout | exact Hts |].
    intros ->. rewrite Hts in Hl. apply Forall2_length in Hl.
    destruct (st_calls st); [done | discriminate].
  - apply last_None in Hlast. done.
Qed.

(** ** The claims about the forward pass *)

Section ForwardClaims.
Context `{M : BaseModel}.
Implicit Types (self : RMTEncoder) (kw : kwargs) (st : loop_state).

(** C5.  The memory is detached at slot [seg_num] exactly when
    [bptt_depth >= 0] and the number of slots still to visit exceeds
    [bptt_depth].  With [bptt_depth = 0] this is every slot, and every
    encoder call of a forward pass gets a memory with an empty gradient
    graph; with [bptt_depth = -1] it is no slot, and every encoder call
    gets a memory whose graph holds all the calls before it. *)
Theorem bptt_detachment self (n_slots seg_num : nat) :
  (detach_here self n_slots seg_num = true
     ↔ 0 ≤ bptt_depth self
       ∧ bptt_depth self < Z.of_nat n_slots - Z.of_nat seg_num)
  ∧ (∀ st, memory_at self n_slots seg_num st
           = if detach_here self n_slots seg_num
             then {| mem_rows := mem_rows (st_memory st); mem_graph := [] |}
             else st_memory st)
  ∧ (bptt_depth self = 0 → (seg_num < n_slots)%nat →
     detach_here self n_slots seg_num = true)
  ∧ (bptt_depth self = -1 → detach_here self n_slots seg_num = false)
  ∧ (∀ input_ids kw st,
       run_forward self input_ids kw = Ok st →
       (bptt_depth self = 0 →
        Forall (fun c => call_graph c = []) (st_calls st))
       ∧ (bptt_depth self = -1 →
          ∀ (k : nat) c, st_calls st !! k = Some c →
            call_graph c = reverse (map call_seg (take k (st_calls st))))).
Proof.
  split; [|split; [|split; [|split]]].
  - unfold detach_here. rewrite andb_true_iff, !Z.ltb_lt. lia.
  - intros st. unfold memory_at, detach. by destruct (detach_here _ _ _).
  - intros Hd Hlt. unfold detach_here.
    rewrite andb_true_iff, !Z.ltb_lt. lia.
  - intros Hd. unfold detach_here. by rewrite Hd.
  - intros input_ids kw st Hrun. split; intros Hd.
    + by eapply run_forward_detached.
    + by destruct (run_forward_attached self input_ids kw st ltac:(lia) Hrun).
Qed.

(** C9.  A slot in which no batch element has a segment is passed over:
    the step returns normally, the encoder is not called, no loss is
    recorded, and the memory values stay as they were; over a whole forward
    pass the encoder calls, and so the recorded losses, are exactly the
    slots that hold a segment. *)
Theorem empty_slot_is_skipped self (n_slots : nat) kw (seg_num : nat)
    (slot : list (option (list Z))) st :
  Forall (.= None) slot →
  (∃ st',
     segment_step self n_slots kw seg_num slot st = Ok st'
     ∧ st_calls st' = st_calls st
     ∧ st_losses st' = st_losses st
     ∧ st_out st' = st_out st
     ∧ mem_rows (st_memory st') = mem_rows (st_memory st))
  ∧ (∀ input_ids segmented st_end,
       pad_and_segment self input_ids = Ok segmented →
       run_forward self input_ids kw = Ok st_end →
       map call_seg (st_calls st_end) = processed_from 0 segmented
       ∧ length (st_losses st_end) = length (processed_from 0 segmented)).
Proof.
  intros Hslot. split.
  - eexists. split; [by apply segment_step_skip|]. simpl.
    by rewrite mem_rows_memory_at.
  - intros input_ids segmented st_end Hseg Hrun.
    apply run_forward_trace in Hrun as (segmented' & Hseg' & Hsegs & Hl & _).
    rewrite Hseg in Hseg'. inversion Hseg'; subst segmented'.
    split; [done|].
    apply Forall2_length in Hl. by rewrite Hl, <- Hsegs, length_map.
Qed.

(** C7, at the failing input.  On the batch of the rows A (12 content
    tokens) and B (3 content tokens), slot 0 holds a segment of A and none
    of B; stacking the slot raises, whatever the encoder, so no slot is
    ever processed with B's memory row left as it was. *)
Theorem call_raises_on_uneven_batch kw :
  __call__ Examples.bert [Examples.seqA; Examples.seqB] kw = Raise TypeError.
Proof.
  unfold __call__, run_forward.
  destruct (pad_and_segment Examples.bert [Examples.seqA; Examples.seqB])
    as [segmented|e] eqn:Hseg; vm_compute in Hseg; [|discriminate].
  inversion Hseg; subst segmented; clear Hseg.
  cbn [rbind run_segments].
  erewrite segment_step_mixed; [done | by left | by right; left].
Qed.

(** C10.  Without [sum_loss], the [loss] of the returned output is the
    [loss] entry of the encoder's output on the last slot it was called
    on, untouched; the losses of all the calls are found, averaged, under
    the [loss_i] keys. *)
Theorem loss_without_sum self input_ids kw out :
  sum_loss self = false →
  __call__ self input_ids kw = Ok out →
  ∃ st c,
    run_forward self input_ids kw = Ok st
    ∧ last (st_calls st) = Some c
    ∧ forward (call_input c) = Ok (call_output c)
    ∧ out !! "loss" = call_output c !! "loss"
    ∧ ∀ (k : nat) c', st_calls st !! k = Some c' →
        ∃ t, call_output c' !! "loss" = Some (VTensor t)
             ∧ out !! loss_key k = Some (VTensor (tensor_mean t)).
Proof.
  intros Hsum Hcall. unfold __call__ in Hcall.
  apply rbind_Ok in Hcall as (st & Hrun & Hfin).
  apply finish_Ok in Hfin as (o & ts & Hout & Hlosses & Hkeys & Hloss).
  rewrite Hsum in Hloss.
  pose proof (run_forward_trace _ _ _ _ Hrun)
    as (segmented & _ & _ & Hl & Ho & Hfw).
  rewrite Hout in Ho. destruct (last (st_calls st)) as [c|] eqn:Hlast;
    [|discriminate]. inversion Ho; subst o.
  exists st, c. split; [done|]. split; [done|]. split.
  { rewrite Forall_forall in Hfw. apply Hfw. by apply last_Some_elem_of. }
  split; [done|].
  intros k c' Hk. rewrite Hlosses in Hl.
  destruct (Forall2_lookup_r _ _ _ _ _ Hl Hk) as (l & Hlk & Hloss').
  rewrite list_lookup_fmap in Hlk.
  destruct (ts !! k) as [t|] eqn:Ht; [|discriminate]. inversion Hlk; subst l.
  exists t. split; [done|]. by apply Hkeys.
Qed.

(** C6 (as amended).  With [sum_loss], the [loss] of the returned output
    is the sum of the losses of the encoder calls, one per slot that holds
    a segment, and the [k]-th of these calls, counted from 0 over the
    processed slots only, gives the field [loss_k], the mean of its
    loss. *)
Theorem loss_with_sum self input_ids kw out :
  sum_loss self = true →
  __call__ self input_ids kw = Ok out →
  ∃ st segmented ts,
    run_forward self input_ids kw = Ok st
    ∧ pad_and_segment self input_ids = Ok segmented
    ∧ map call_seg (st_calls st) = processed_from 0 segmented
    ∧ Forall2 (fun c t => call_output c !! "loss" = Some (VTensor t))
        (st_calls st) ts
    ∧ out !! "loss" = Some (VTensor (stack_sum ts))
    ∧ ∀ (k : nat) t, ts !! k = Some t →
        out !! loss_key k = Some (VTensor (tensor_mean t)).
Proof.
  intros Hsum Hcall. unfold __call__ in Hcall.
  apply rbind_Ok in Hcall as (st & Hrun & Hfin).
  apply finish_Ok in Hfin as (o & ts & Hout & Hlosses & Hkeys & Hloss).
  rewrite Hsum in Hloss. destruct Hloss as [_ Hloss].
  pose proof (run_forward_trace _ _ _ _ Hrun)
    as (segmented & Hseg & Hsegs & Hl & _).
  exists st, segmented, ts. repeat split; try done.
  rewrite Hlosses in Hl. apply Forall2_flip.
  by apply Forall2_fmap_l in Hl.
Qed.

End ForwardClaims.

(** ** The claims on a small encoder *)

Lemma bptt_detachment_witness :
  detach_here (Examples.with_bptt 0 Examples.bert) 3 1 = true
  ∧ detach_here Examples.bert 3 1 = false
  ∧ (∃ st,
       @run_forward Examples.toy (Examples.with_bptt 0 Examples.bert)
         [Examples.seqA] (Examples.toy_kwargs [1]) = Ok st
       ∧ length (st_calls st) = 3%nat
       ∧ Forall (fun c => call_graph c = []) (st_calls st))
  ∧ (∃ st,
       @run_forward Examples.toy Examples.bert
         [Examples.seqA] (Examples.toy_kwargs [1]) = Ok st
       ∧ ∀ (k : nat) c, st_calls st !! k = Some c →
           call_graph c = reverse (map call_seg (take k (st_calls st)))).
Proof.
  destruct (@bptt_detachment Examples.toy
              (Examples.with_bptt 0 Examples.bert) 3 1)
    as (_ & _ & Hzero & _ & Hrun0).
  destruct (@bptt_detachment Examples.toy Examples.bert 3 1)
    as (_ & _ & _ & Hminus & Hrun1).
  split; [apply Hzero; [reflexivity | lia]|].
  split; [apply Hminus; reflexivity|].
  split.
  - eexists. split; [reflexivity|]. split; [reflexivity|].
    exact (proj1 (Hrun0 [Examples.seqA] (Examples.toy_kwargs [1]) _ eq_refl)
             eq_refl).
  - eexists. split; [reflexivity|].
    exact (proj2 (Hrun1 [Examples.seqA] (Examples.toy_kwargs [1]) _ eq_refl)
             eq_refl).
Defined.

Lemma empty_slot_is_skipped_witness :
  (∃ st',
     @segment_step Examples.toy Examples.bert 3 (Examples.toy_kwargs [1]) 0
       [None] (initial_state Examples.bert 1) = Ok st'
     ∧ st_calls st' = [] ∧ st_losses st' = [] ∧ st_out st' = None)
  ∧ (∃ st_end,
       @run_forward Examples.toy Examples.bert [Examples.seqB]
         (Examples.toy_kwargs [1]) = Ok st_end
       ∧ map call_seg (st_calls st_end) = [2%nat]
       ∧ length (st_losses st_end) = 1%nat).
Proof.
  destruct (@empty_slot_is_skipped Examples.toy Examples.bert 3
              (Examples.toy_kwargs [1]) 0 [None]
              (initial_state Examples.bert 1))
    as [(st' & Hstep & Hcalls & Hlosses & Hout & _) Hrun].
  { repeat constructor. }
  split.
  { exists st'. repeat split; assumption. }
  eexists. split; [reflexivity|].
  exact (Hrun [Examples.seqB] _ _ eq_refl eq_refl).
Defined.

Lemma loss_without_sum_witness :
  ∃ out,
    @__call__ Examples.toy (Examples.with_sum_loss false Examples.bert)
      [Examples.seqA] (Examples.toy_kwargs [1]) = Ok out
    ∧ (∃ st c,
         @run_forward Examples.toy (Examples.with_sum_loss false Examples.bert)
           [Examples.seqA] (Examples.toy_kwargs [1]) = Ok st
         ∧ last (st_calls st) = Some c
         ∧ out !! "loss" = call_output c !! "loss")
    ∧ out !! "loss" = Some (VTensor 3%float)
    ∧ out !! "loss_0" = Some (VTensor 1%float)
    ∧ out !! "loss_1" = Some (VTensor 2%float)
    ∧ out !! "loss_2" = Some (VTensor 3%float).
Proof.
  eexists. split; [reflexivity|]. split.
  - destruct (@loss_without_sum Examples.toy
                (Examples.with_sum_loss false Examples.bert)
                [Examples.seqA] (Examples.toy_kwargs [1]) _ eq_refl eq_refl)
      as (st & c & Hrun & Hlast & _ & Hloss & _).
    exists st, c. repeat split; assumption.
  - repeat split.
Defined.

Lemma loss_with_sum_witness :
  ∃ out,
    @__call__ Examples.toy Examples.bert [Examples.seqA] (Examples.toy_kwargs [1])
      = Ok out
    ∧ (∃ ts, out !! "loss" = Some (VTensor (@stack_sum Examples.toy ts))
             ∧ ∀ (k : nat) t, ts !! k = Some t →
                 out !! loss_key k = Some (VTensor t))
    ∧ out !! "loss" = Some (VTensor 6%float)
    ∧ out !! "loss_0" = Some (VTensor 1%float)
    ∧ out !! "loss_1" = Some (VTensor 2%float)
    ∧ out !! "loss_2" = Some (VTensor 3%float).
Proof.
  eexists. split; [reflexivity|]. split.
  - destruct (@loss_with_sum Examples.toy Examples.bert
                [Examples.seqA] (Examples.toy_kwargs [1]) _ eq_refl eq_refl)
      as (st & segmented & ts & _ & _ & _ & _ & Hloss & Hkeys).
    exists ts. split; assumption.
  - repeat split.
Defined.

(** A field [loss_i] is numbered by the rank of the encoder call, not by the
    slot: on a single short row only slot 2 is processed, and its loss is
    found under [loss_0], while there is no [loss_2]. *)
Lemma loss_field_is_not_numbered_by_slot :
  ∃ out st,
    @__call__ Examples.toy Examples.bert [Examples.seqB] (Examples.toy_kwargs [1])
      = Ok out
    ∧ @run_forward Examples.toy Examples.bert [Examples.seqB]
        (Examples.toy_kwargs [1]) = Ok st
    ∧ map call_seg (st_calls st) = [2%nat]
    ∧ out !! loss_key 2 = None
    ∧ out !! loss_key 0 = Some (VTensor 1%float)
    ∧ ¬ (∀ c, c ∈ st_calls st →
           ∃ t, call_output c !! "loss" = Some (VTensor t)
                ∧ out !! loss_key (call_seg c)
                    = Some (VTensor (@tensor_mean Examples.toy t))).
Proof.
  eexists _, _. split; [reflexivity|]. split; [reflexivity|].
  split; [reflexivity|]. split; [reflexivity|]. split; [reflexivity|].
  intros H. edestruct H as (t & _ & Hk); [by left|].
  vm_compute in Hk. discriminate.
Qed.

(** * Further properties of the code *)

(** ** More on the segmented batch *)

(** Entry of row [b] in slot [i] of an aligned batch. *)
Lemma right_align_lookup {A} (max_n : Z) (segmented_batch : list (list A))
    (i b : nat) (chunks : list A) :
  (i < Z.to_nat max_n)%nat →
  segmented_batch !! b = Some chunks →
  ∃ slot,
    right_align max_n segmented_batch !! i = Some slot
    ∧ slot !! b
        = Some (if decide (max_n - Z.of_nat (length chunks) ≤ Z.of_nat i)
                then chunks !! Z.to_nat
                       (Z.of_nat i - (max_n - Z.of_nat (length chunks)))
                else None).
Proof.
  intros Hi Hb. rewrite right_align_is_direct.
  unfold right_align_direct, Py.range. eexists. split.
  - rewrite list_lookup_fmap, lookup_seq_lt by done. reflexivity.
  - rewrite list_lookup_fmap, Hb. reflexivity.
Qed.

(** The chunk list of a row that segments well is not empty and fits in the
    slots. *)
Lemma segment_sequence_count self seq segs :
  segment_sequence self seq = Ok segs → 0 ≤ max_n_segments self →
  (1 ≤ length segs)%nat ∧ Z.of_nat (length segs) ≤ max_n_segments self.
Proof.
  intros Hseg Hm.
  apply segment_sequence_Ok in Hseg as (Hs & Hne & chunks & -> & _ & Hn & _).
  rewrite length_map.
  pose proof (chunk_count_le_slots self seq Hs Hm).
  assert (0 < Py.ceil_div (Z.of_nat (length (truncated self seq)))
                (segment_size self)).
  { apply ceil_div_pos; [done|]. destruct (truncated self seq); [done|].
    simpl. lia. }
  lia.
Qed.

(** Right alignment: whenever [pad_and_segment] returns, the last slot holds
    a segment of every row, and a row that has a segment in some slot has one
    in every later slot. *)
Theorem last_slot_is_populated (self : RMTEncoder) (input_ids : list (list Z))
    (segmented : list (list (option (list Z)))) :
  pad_and_segment self input_ids = Ok segmented →
  1 ≤ max_n_segments self →
  (∃ slot, last segmented = Some slot
           ∧ length slot = length input_ids
           ∧ Forall is_Some slot)
  ∧ ∀ (i j b : nat) slot_i slot_j,
      segmented !! i = Some slot_i → segmented !! j = Some slot_j →
      (i ≤ j)%nat → is_Some (mjoin (slot_i !! b)) → is_Some (mjoin (slot_j !! b)).
Proof.
  intros Hseg Hm.
  pose proof (pad_and_segment_shape _ _ _ Hseg) as [Hlen Hwidth].
  apply pad_and_segment_Ok in Hseg as (sb & Hsb & ->).
  pose proof (for_each_length _ _ _ Hsb) as Hsblen.
  split.
  - destruct (lookup_lt_is_Some_2 (right_align (max_n_segments self) sb)
                (Z.to_nat (max_n_segments self) - 1)) as [slot Hslot]; [lia|].
    exists slot. rewrite last_lookup, Hlen.
    replace (Init.Nat.pred (Z.to_nat (max_n_segments self)))
      with (Z.to_nat (max_n_segments self) - 1)%nat by lia.
    split; [done|]. rewrite Forall_forall in Hwidth.
    split; [apply Hwidth; by eapply list_elem_of_lookup_2|].
    apply Forall_lookup. intros b entry Hentry.
    destruct (lookup_lt_is_Some_2 sb b) as [chunks Hchunks].
    { apply lookup_lt_Some in Hentry.
      rewrite (Hwidth slot) in Hentry by by eapply list_elem_of_lookup_2. lia. }
    destruct (lookup_lt_is_Some_2 input_ids b) as [seq Hseq].
    { apply lookup_lt_Some in Hchunks. lia. }
    destruct (for_each_lookup _ _ _ _ _ Hsb Hseq) as (segs & Hsegs & Hlook).
    rewrite Hchunks in Hlook. inversion Hlook; subst segs.
    apply segment_sequence_count in Hsegs as [H1 H2]; [|lia].
    destruct (right_align_lookup (max_n_segments self) sb
                (Z.to_nat (max_n_segments self) - 1) b chunks ltac:(lia) Hchunks)
      as (slot' & Hslot' & Hb).
    rewrite Hslot in Hslot'. inversion Hslot'; subst slot'.
    rewrite Hentry in Hb. inversion Hb; subst entry.
    rewrite decide_True by lia. apply lookup_lt_is_Some. lia.
  - intros i j b slot_i slot_j Hi Hj Hij Hpresent.
    apply lookup_lt_Some in Hi as Hilt. apply lookup_lt_Some in Hj as Hjlt.
    rewrite Hlen in Hilt, Hjlt.
    destruct (slot_i !! b) as [entry|] eqn:Hentry; [|by destruct Hpresent].
    destruct (lookup_lt_is_Some_2 sb b) as [chunks Hchunks].
    { apply lookup_lt_Some in Hentry. rewrite Forall_forall in Hwidth.
      rewrite (Hwidth slot_i) in Hentry by by eapply list_elem_of_lookup_2. lia. }
    destruct (right_align_lookup (max_n_segments self) sb i b chunks Hilt Hchunks)
      as (si & Hsi & Hbi).
    destruct (right_align_lookup (max_n_segments self) sb j b chunks Hjlt Hchunks)
      as (sj & Hsj & Hbj).
    rewrite Hi in Hsi. inversion Hsi; subst si.
    rewrite Hj in Hsj. inversion Hsj; subst sj.
    rewrite Hentry in Hbi. inversion Hbi; subst entry. rewrite Hbj. simpl in *.
    destruct (decide (max_n_segments self - Z.of_nat (length chunks) ≤ Z.of_nat i))
      as [Hfi|Hfi]; [|by destruct Hpresent].
    apply lookup_lt_is_Some in Hpresent.
    rewrite decide_True by lia. apply lookup_lt_is_Some. lia.
Qed.

Lemma last_slot_is_populated_witness :
  ∃ segmented slot,
    pad_and_segment Examples.bert [Examples.seqA; Examples.seqB] = Ok segmented
    ∧ last segmented = Some slot ∧ Forall is_Some slot.
Proof.
  eexists.
  destruct (last_slot_is_populated Examples.bert
              [Examples.seqA; Examples.seqB] _ eq_refl)
    as [(slot & Hlast & _ & Hall) _].
  { vm_compute. discriminate. }
  exists slot. split; [reflexivity|]. split; [exact Hlast | exact Hall].
Defined.

(** ** Chunk sizes *)

Lemma map_const_replicate {A B} (f : A → B) (c : B) (l : list A) :
  (∀ x, x ∈ l → f x = c) → map f l = replicate (length l) c.
Proof.
  induction l as [|x l IH]; intros Hf; [done|]. simpl.
  rewrite Hf by by left. f_equal. apply IH. intros y Hy. apply Hf. by right.
Qed.

Lemma div_ceil_nat (len c : nat) :
  (0 < c)%nat → (0 < len)%nat →
  (((len + c - 1) / c - 1) * c < len ≤ (len + c - 1) / c * c)%nat
  ∧ (1 ≤ (len + c - 1) / c)%nat.
Proof.
  intros Hc Hlen.
  pose proof (Nat.div_mod (len + c - 1) c ltac:(lia)).
  pose proof (Nat.mod_upper_bound (len + c - 1) c ltac:(lia)).
  assert (1 ≤ (len + c - 1) / c)%nat by (apply Nat.div_le_lower_bound; lia).
  nia.
Qed.

(** [torch.split] on a non-empty tensor: all pieces have the split size but
    the last, which takes what is left. *)
Lemma torch_split_sizes {A} (c : nat) (t : list A) :
  (0 < c)%nat → (0 < length t)%nat →
  map length (Py.torch_split c t)
    = replicate ((length t + c - 1) / c - 1)%nat c
        ++ [(length t - ((length t + c - 1) / c - 1) * c)%nat].
Proof.
  intros Hc Ht. destruct (div_ceil_nat (length t) c Hc Ht) as [[Hlo Hhi] Hn].
  unfold Py.torch_split. set (n := ((length t + c - 1) / c)%nat) in *.
  rewrite Nat.max_l by lia.
  replace n with ((n - 1) + 1)%nat at 1 by lia.
  rewrite seq_app, !map_app. simpl. f_equal.
  - rewrite (map_const_replicate _ c).
    + by rewrite length_map, length_seq.
    + intros x Hx. apply list_elem_of_fmap in Hx as (i & -> & Hi).
      apply elem_of_seq in Hi. rewrite length_take, length_drop. nia.
  - f_equal. rewrite length_take, length_drop. nia.
Qed.

(** The chunks of a row: [torch.split] of what is left of the row, by the
    width [ceil(len / ceil(len / segment_size))]. *)
Lemma segment_sequence_split self seq segs :
  segment_sequence self seq = Ok segs →
  ∃ c : nat,
    (0 < c)%nat ∧ Z.of_nat c ≤ segment_size self
    ∧ Z.of_nat c
        = Py.ceil_div (Z.of_nat (length (truncated self seq)))
            (Py.ceil_div (Z.of_nat (length (truncated self seq)))
               (segment_size self))
    ∧ Z.of_nat ((length (truncated self seq) + c - 1) / c)
        = Py.ceil_div (Z.of_nat (length (truncated self seq))) (segment_size self)
    ∧ segs = map (fun t => pad_add_special_tokens self t (input_size self))
               (Py.torch_split c (truncated self seq)).
Proof.
  intros Hseg.
  pose proof (segment_sequence_Ok _ _ _ Hseg) as (Hs & Hne & _).
  assert (Hlen : 0 < Z.of_nat (length (truncated self seq))).
  { destruct (truncated self seq); [done | simpl; lia]. }
  destruct (chunk_width_bounds _ _ Hs Hlen) as (Hn & [Hc Hcs] & Hnc).
  set (L := Z.of_nat (length (truncated self seq))) in *.
  set (n := Py.ceil_div L (segment_size self)) in *.
  set (c := Py.ceil_div L n) in *.
  exists (Z.to_nat c). split; [lia|]. split; [lia|]. split; [lia|]. split.
  - rewrite Nat2Z.inj_div, Nat2Z.inj_sub, Nat2Z.inj_add, Z2Nat.id by lia.
    change (Z.of_nat 1) with 1. fold L. by rewrite (ceil_div_add _ c Hc).
  - unfold segment_sequence in Hseg. fold (truncated self seq) in Hseg.
    unfold Py.math_ceil_div in Hseg.
    destruct (Z.eqb_spec (segment_size self) 0) as [|_]; [lia|].
    simpl in Hseg. fold L n in Hseg. unfold Py.torch_chunk in Hseg.
    destruct (Z.leb_spec n 0) as [|_]; [lia|].
    fold L in Hseg. rewrite (ceil_div_add _ n Hn) in Hseg. fold c in Hseg.
    destruct (Z.eqb_spec c 0) as [|_]; [lia|].
    simpl in Hseg. by inversion Hseg.
Qed.

Lemma truncated_keep self seq x :
  x ∈ truncated self seq → keep_token self x = true.
Proof.
  unfold truncated, Py.slice_to, strip_special. intros Hx.
  assert (x ∈ List.filter (keep_token self) seq) as Hin.
  { destruct (0 <=? _); eapply subseteq_take; eauto. }
  by apply list_elem_of_In, filter_In in Hin as [_ Hkeep].
Qed.

Lemma torch_split_elem {A} (c : nat) (t chunk : list A) (x : A) :
  chunk ∈ Py.torch_split c t → x ∈ chunk → x ∈ t.
Proof.
  unfold Py.torch_split. intros Hchunk Hx.
  apply list_elem_of_fmap in Hchunk as (i & -> & _).
  by apply subseteq_take, subseteq_drop in Hx.
Qed.

(** How many tokens each segment of a row carries. *)
Lemma slots_of_sizes (self : RMTEncoder) (input_ids : list (list Z))
    (segmented : list (list (option (list Z)))) (b : nat) (seq : list Z) :
  pad_and_segment self input_ids = Ok segmented →
  0 ≤ max_n_segments self →
  input_ids !! b = Some seq →
  ∃ n c : nat,
    Z.of_nat n = Py.ceil_div (Z.of_nat (length (truncated self seq)))
                   (segment_size self)
    ∧ Z.of_nat c = Py.ceil_div (Z.of_nat (length (truncated self seq)))
                     (Z.of_nat n)
    ∧ (1 ≤ n)%nat ∧ (1 ≤ c)%nat ∧ Z.of_nat c ≤ segment_size self
    ∧ ((n - 1) * c < length (truncated self seq) ≤ n * c)%nat
    ∧ map (fun seg => length (segment_content self seg)) (slots_of b segmented)
        = replicate (n - 1)%nat c
            ++ [(length (truncated self seq) - (n - 1) * c)%nat].
Proof.
  intros Hseg Hm Hb.
  pose proof (slots_of_pad_and_segment _ _ _ _ _ Hseg Hb)
    as (Hs & Hne & chunks0 & _ & Hn0 & _ & _).
  apply pad_and_segment_Ok in Hseg as (sb & Hsb & ->).
  destruct (for_each_lookup _ _ _ _ _ Hsb Hb) as (segs & Hsegs & Hlook).
  pose proof (segment_sequence_count _ _ _ Hsegs Hm) as [_ Hfit].
  apply segment_sequence_split in Hsegs as (c & Hc & Hcs & Hcdef & Hn & ->).
  assert (Hlen : (0 < length (truncated self seq))%nat).
  { destruct (truncated self seq); [done | simpl; lia]. }
  destruct (div_ceil_nat _ c Hc Hlen) as [Hbounds Hn1].
  exists ((length (truncated self seq) + c - 1) / c)%nat, c.
  split; [done|]. split; [by rewrite Hn|]. split; [done|]. split; [lia|].
  split; [done|]. split; [done|].
  rewrite (slots_of_right_align _ _ _ _ Hlook).
  rewrite length_map, torch_split_length in *.
  replace (_ - Z.to_nat (max_n_segments self))%nat with 0%nat by lia.
  rewrite drop_0, <- list_fmap_compose.
  rewrite <- (torch_split_sizes c (truncated self seq) Hc Hlen).
  apply list_fmap_ext. intros i chunk Hchunk. simpl.
  rewrite pad_add_special_tokens_content; [done|].
  intros Hsep. apply list_elem_of_lookup_2 in Hchunk.
  eapply truncated_no_sep; [by eapply torch_split_elem|done].
Qed.

(** The chunks of a row are balanced: a row left with [len] tokens after
    stripping and truncation is cut into [n = ceil(len / segment_size)]
    segments, the first [n - 1] carrying [c = ceil(len / n)] tokens each and
    the last one the remaining [len - (n - 1) * c], between 1 and [c]; [c]
    is at most [segment_size]. *)
Theorem chunk_sizes_are_balanced (self : RMTEncoder) (input_ids : list (list Z))
    (segmented : list (list (option (list Z)))) (b : nat) (seq : list Z) :
  pad_and_segment self input_ids = Ok segmented →
  0 ≤ max_n_segments self →
  input_ids !! b = Some seq →
  ∃ n c : nat,
    Z.of_nat n = Py.ceil_div (Z.of_nat (length (truncated self seq)))
                   (segment_size self)
    ∧ Z.of_nat c = Py.ceil_div (Z.of_nat (length (truncated self seq)))
                     (Z.of_nat n)
    ∧ (1 ≤ n)%nat ∧ (1 ≤ c)%nat ∧ Z.of_nat c ≤ segment_size self
    ∧ ((n - 1) * c < length (truncated self seq) ≤ n * c)%nat
    ∧ map (fun seg => length (segment_content self seg)) (slots_of b segmented)
        = replicate (n - 1)%nat c
            ++ [(length (truncated self seq) - (n - 1) * c)%nat].
Proof. apply slots_of_sizes. Qed.

Lemma chunk_sizes_are_balanced_witness :
  ∃ segmented,
    pad_and_segment Examples.bert [Examples.seqA; Examples.seqB] = Ok segmented
    ∧ map (fun seg => length (segment_content Examples.bert seg))
          (slots_of 0 segmented) = [4; 4; 4]%nat.
Proof.
  eexists. split; [reflexivity|].
  destruct (chunk_sizes_are_balanced Examples.bert
              [Examples.seqA; Examples.seqB] _ 0 Examples.seqA eq_refl)
    as (n & c & Hn & Hc & _ & _ & _ & _ & Hsizes); [vm_compute; discriminate | reflexivity |].
  rewrite Hsizes.
  change (Py.ceil_div _ _) with 3 in Hn. apply (Nat2Z.inj n 3) in Hn. subst n.
  change (Py.ceil_div _ _) with 4 in Hc. apply (Nat2Z.inj c 4) in Hc. subst c.
  reflexivity.
Defined.

(** A row with at least [segment_size * max_n_segments] content tokens fills
    every slot with exactly [segment_size] tokens; what lies beyond is
    dropped without notice. *)
Theorem long_row_fills_every_slot (self : RMTEncoder) (input_ids : list (list Z))
    (segmented : list (list (option (list Z)))) (b : nat) (seq : list Z) :
  pad_and_segment self input_ids = Ok segmented →
  0 ≤ max_n_segments self →
  input_ids !! b = Some seq →
  segment_size self * max_n_segments self
    ≤ Z.of_nat (length (strip_special self seq)) →
  map (fun seg => length (segment_content self seg)) (slots_of b segmented)
    = replicate (Z.to_nat (max_n_segments self)) (Z.to_nat (segment_size self))
  ∧ concat (map (segment_content self) (slots_of b segmented))
      ++ drop (Z.to_nat (segment_size self * max_n_segments self))
           (strip_special self seq)
    = strip_special self seq.
Proof.
  intros Hseg Hm Hb Hlong.
  pose proof (slots_of_pad_and_segment _ _ _ _ _ Hseg Hb)
    as (Hs & Hne & chunks & Hcat & Hcount & _ & Hslots).
  pose proof (length_truncated self seq Hs Hm) as Hlen.
  rewrite Z.min_r in Hlen by done.
  split.
  - destruct (slots_of_sizes _ _ _ _ _ Hseg Hm Hb)
      as (n & c & Hn & Hc & Hn1 & Hc1 & _ & _ & ->).
    rewrite Hlen in Hn, Hc.
    assert (Z.of_nat n = max_n_segments self) as Hnm.
    { rewrite Hn. apply ceil_div_unique; [done | nia]. }
    assert (Z.of_nat c = segment_size self) as Hcs.
    { rewrite Hc, Hnm. apply ceil_div_unique; [lia | nia]. }
    replace (Z.to_nat (max_n_segments self)) with ((n - 1) + 1)%nat by lia.
    assert (c = Z.to_nat (segment_size self)) as Hc' by lia.
    assert ((length (truncated self seq) - (n - 1) * c)%nat
            = Z.to_nat (segment_size self)) as -> by nia.
    rewrite replicate_add. simpl. by rewrite Hc'.
  - rewrite Hslots.
    pose proof (chunk_count_le_slots self seq Hs Hm).
    replace (length chunks - Z.to_nat (max_n_segments self))%nat with 0%nat by lia.
    rewrite drop_0, (contents_of_segments self seq) by done.
    rewrite Hcat. unfold truncated, Py.slice_to.
    destruct (Z.leb_spec 0 (segment_size self * max_n_segments self)); [|nia].
    apply take_drop.
Qed.

Lemma long_row_fills_every_slot_witness :
  ∃ segmented,
    pad_and_segment Examples.bert
      [[101; 1; 2; 3; 4; 5; 6; 7; 8; 9; 10; 11; 12; 13; 14; 15; 16; 17; 102]]
      = Ok segmented
    ∧ map (fun seg => length (segment_content Examples.bert seg))
          (slots_of 0 segmented) = [5; 5; 5]%nat.
Proof.
  eexists. split; [reflexivity|].
  exact (proj1 (long_row_fills_every_slot Examples.bert
                  [[101; 1; 2; 3; 4; 5; 6; 7; 8; 9; 10; 11; 12; 13; 14; 15; 16;
                    17; 102]] _ 0 _ eq_refl
                  ltac:(vm_compute; discriminate) eq_refl
                  ltac:(vm_compute; discriminate))).
Defined.

(** A configuration with [input_size <= num_mem_tokens + 3] leaves no room
    for content: every batch with at least one row makes [pad_and_segment]
    raise, by a division by zero when [segment_size] is 0 and in
    [torch.chunk] when it is negative. *)
Theorem no_room_for_content_raises (self : RMTEncoder) (seq : list Z)
    (rest : list (list Z)) :
  (segment_size self = 0 →
   pad_and_segment self (seq :: rest) = Raise ZeroDivisionError)
  ∧ (segment_size self < 0 →
     pad_and_segment self (seq :: rest) = Raise RuntimeError).
Proof.
  split; intros Hs; unfold pad_and_segment; simpl;
    unfold segment_sequence, Py.math_ceil_div.
  - rewrite Hs. reflexivity.
  - destruct (Z.eqb_spec (segment_size self) 0) as [|_]; [lia|]. simpl.
    unfold Py.torch_chunk.
    match goal with |- context [Py.ceil_div ?a ?b] =>
      pose proof (ceil_div_neg_divisor a b ltac:(lia) Hs) as Hn end.
    destruct (Z.leb_spec (Py.ceil_div
       (Z.of_nat (length (Py.slice_to (segment_size self * max_n_segments self)
                            (strip_special self seq)))) (segment_size self)) 0);
      [done | lia].
Qed.

Lemma no_room_for_content_raises_witness :
  pad_and_segment
    {| vocab_size := 1000; num_mem_tokens := 7; pad_token_id := 0;
       cls_token := 101; sep_token := 102; input_size := 10;
       max_n_segments := 3; bptt_depth := -1; sum_loss := true |}
    [Examples.seqA] = Raise ZeroDivisionError
  ∧ pad_and_segment
      {| vocab_size := 1000; num_mem_tokens := 8; pad_token_id := 0;
         cls_token := 101; sep_token := 102; input_size := 10;
         max_n_segments := 3; bptt_depth := -1; sum_loss := true |}
      [Examples.seqA] = Raise RuntimeError.
Proof.
  split.
  - apply no_room_for_content_raises. reflexivity.
  - apply no_room_for_content_raises. reflexivity.
Defined.

(** ** The layout of the segments *)

Lemma torch_split_nonempty {A} (c : nat) (t : list A) :
  (0 < c)%nat → (0 < length t)%nat →
  Forall (fun ch => (1 ≤ length ch ≤ c)%nat) (Py.torch_split c t).
Proof.
  intros Hc Ht. destruct (div_ceil_nat (length t) c Hc Ht) as [[Hlo Hhi] Hn].
  unfold Py.torch_split. rewrite Nat.max_l by lia.
  apply Forall_fmap, Forall_forall. intros i Hi. simpl.
  apply elem_of_seq in Hi. rewrite length_take, length_drop. nia.
Qed.

Lemma right_align_elem {A} (max_n : Z) (segmented_batch : list (list A))
    (i b : nat) slot (seg : A) :
  right_align max_n segmented_batch !! i = Some slot →
  slot !! b = Some (Some seg) →
  ∃ chunks, segmented_batch !! b = Some chunks ∧ seg ∈ chunks.
Proof.
  intros Hslot Hseg.
  assert (i < Z.to_nat max_n)%nat as Hi.
  { apply lookup_lt_Some in Hslot. unfold right_align, Py.range in Hslot.
    by rewrite length_reverse, length_map, length_seq in Hslot. }
  destruct (segmented_batch !! b) as [chunks|] eqn:Hb.
  - destruct (right_align_lookup max_n segmented_batch i b chunks Hi Hb)
      as (slot' & Hslot' & Hentry).
    rewrite Hslot in Hslot'. inversion Hslot'; subst slot'.
    rewrite Hseg in Hentry. inversion Hentry as [Heq].
    exists chunks. split; [done|]. case_decide; [|done].
    by eapply list_elem_of_lookup_2.
  - exfalso. rewrite right_align_is_direct in Hslot.
    unfold right_align_direct, Py.range in Hslot.
    rewrite list_lookup_fmap, lookup_seq_lt in Hslot by done.
    inversion Hslot; subst slot.
    rewrite list_lookup_fmap, Hb in Hseg. done.
Qed.

(** Every segment of a segmented batch is CLS, the memory token ids, SEP,
    between 1 and [segment_size] content tokens free of pad/cls/sep ids,
    SEP, and zeros up to the width [input_size]. *)
Theorem segment_layout (self : RMTEncoder) (input_ids : list (list Z))
    (segmented : list (list (option (list Z)))) (i b : nat)
    (slot : list (option (list Z))) (segment : list Z) :
  pad_and_segment self input_ids = Ok segmented →
  segmented !! i = Some slot → slot !! b = Some (Some segment) →
  ∃ chunk,
    segment = [cls_token self] ++ mem_token_ids self ++ [sep_token self]
                ++ chunk ++ [sep_token self]
                ++ replicate (Z.to_nat (segment_size self
                                        - Z.of_nat (length chunk))) 0
    ∧ (1 ≤ length chunk)%nat
    ∧ Z.of_nat (length chunk) ≤ segment_size self
    ∧ Forall (fun t => keep_token self t = true) chunk
    ∧ Z.of_nat (length segment) = input_size self.
Proof.
  intros Hseg Hslot Hentry.
  apply pad_and_segment_Ok in Hseg as (sb & Hsb & ->).
  destruct (right_align_elem _ _ _ _ _ _ Hslot Hentry) as (segs & Hb & Hin).
  destruct (lookup_lt_is_Some_2 input_ids b) as [seq Hseq].
  { apply lookup_lt_Some in Hb. apply for_each_length in Hsb. lia. }
  destruct (for_each_lookup _ _ _ _ _ Hsb Hseq) as (segs' & Hsegs & Hlook).
  rewrite Hb in Hlook. inversion Hlook; subst segs'.
  pose proof (segment_sequence_Ok _ _ _ Hsegs) as (Hs & Hne & _).
  apply segment_sequence_split in Hsegs as (c & Hc & Hcs & _ & _ & ->).
  apply list_elem_of_fmap in Hin as (chunk & -> & Hchunk).
  assert (Hlen : (0 < length (truncated self seq))%nat).
  { destruct (truncated self seq); [done | simpl; lia]. }
  pose proof (torch_split_nonempty c _ Hc Hlen) as Hsizes.
  rewrite Forall_forall in Hsizes. specialize (Hsizes _ Hchunk).
  exists chunk. split; [|split; [lia|split; [lia|split]]].
  - rewrite pad_add_special_tokens_unfold, length_assembled.
    unfold assembled, segment_size. rewrite <- !app_assoc.
    do 6 f_equal. lia.
  - apply Forall_forall. intros x Hx.
    eapply truncated_keep, torch_split_elem; eauto.
  - apply pad_add_special_tokens_length. lia.
Qed.

Lemma segment_layout_witness :
  ∃ segmented slot,
    pad_and_segment Examples.bert [Examples.seqB] = Ok segmented
    ∧ segmented !! 2%nat = Some slot
    ∧ slot !! 0%nat = Some (Some [101; 1000; 1001; 102; 31; 32; 33; 102; 0; 0])
    ∧ ∃ chunk, [101; 1000; 1001; 102; 31; 32; 33; 102; 0; 0]
               = [101] ++ [1000; 1001] ++ [102] ++ chunk ++ [102]
                   ++ replicate (Z.to_nat (5 - Z.of_nat (length chunk))) 0.
Proof.
  eexists _, _. split; [reflexivity|]. split; [reflexivity|].
  split; [reflexivity|].
  destruct (segment_layout Examples.bert [Examples.seqB] _ 2 0 _ _
              eq_refl eq_refl eq_refl) as (chunk & Hchunk & _).
  exists chunk. exact Hchunk.
Defined.

(** ** Memory positions and attention masks of segments *)

(** The positions [__call__] overwrites with the memory are exactly where
    segment assembly put the memory token ids. *)
Theorem memory_position_holds_memory_ids (self : RMTEncoder) (tensor : list Z)
    (width : Z) :
  Torch.index_row (memory_position self)
    (pad_add_special_tokens self tensor width) = Ok (mem_token_ids self)
  ∧ length (memory_position self) = num_mem_tokens self
  ∧ Forall (fun t => vocab_size self ≤ t
                     < vocab_size self + Z.of_nat (num_mem_tokens self))
      (mem_token_ids self)
  ∧ NoDup (mem_token_ids self).
Proof.
  split; [|split; [|split]].
  - unfold Torch.index_row, memory_position, mem_token_ids.
    assert (∀ n k : nat, (k + n ≤ num_mem_tokens self)%nat →
      for_each (fun p => match pad_add_special_tokens self tensor width !! p with
                         | Some v => Ok v
                         | None => Raise IndexError
                         end) (seq (S k) n)
      = Ok (map (fun i => vocab_size self + Z.of_nat i) (seq k n))) as Hgen.
    { induction n as [|n IH]; intros k Hk; [done|]. simpl.
      rewrite pad_add_special_tokens_memory by lia. simpl.
      rewrite IH by lia. done. }
    apply (Hgen _ 0%nat). lia.
  - unfold memory_position. apply length_seq.
  - unfold mem_token_ids. apply Forall_fmap, Forall_forall.
    intros i Hi. apply elem_of_seq in Hi. simpl. lia.
  - unfold mem_token_ids. apply NoDup_fmap_2; [|apply NoDup_seq].
    intros i j Hij. lia.
Qed.

(** The attention mask of an assembled segment: ones on CLS, the memory
    ids, both SEPs and the content; on the fill, zeros when the pad id is 0
    and ones otherwise. *)
Theorem attention_mask_of_segment (self : RMTEncoder) (chunk : list Z)
    (width : Z) :
  cls_token self ≠ pad_token_id self →
  sep_token self ≠ pad_token_id self →
  pad_token_id self < vocab_size self →
  Forall (fun t => keep_token self t = true) chunk →
  get_attention_mask self [pad_add_special_tokens self chunk width]
    = [replicate (num_mem_tokens self + 3 + length chunk) 1
         ++ replicate
              (Z.to_nat (width - Z.of_nat (num_mem_tokens self + 3 + length chunk)))
              (if pad_token_id self =? 0 then 0 else 1)].
Proof.
  intros Hcls Hsep Hpad Hchunk. unfold get_attention_mask. simpl. f_equal.
  rewrite pad_add_special_tokens_unfold, map_app, length_assembled. f_equal.
  - rewrite <- (length_assembled self chunk).
    apply map_const_replicate. intros t Ht.
    destruct (Z.eqb_spec t (pad_token_id self)) as [->|]; [|done].
    exfalso. unfold assembled in Ht.
    rewrite !elem_of_app, !list_elem_of_singleton in Ht.
    destruct Ht as [?|[Hmem|[?|[Hin|?]]]]; try done.
    + unfold mem_token_ids in Hmem.
      apply list_elem_of_fmap in Hmem as (i & Hi & _). lia.
    + rewrite Forall_forall in Hchunk. specialize (Hchunk _ Hin).
      unfold keep_token in Hchunk. rewrite Z.eqb_refl in Hchunk. done.
  - rewrite (map_const_replicate _ (if pad_token_id self =? 0 then 0 else 1)).
    + by rewrite length_replicate.
    + intros t Ht. apply elem_of_replicate in Ht as [-> _].
      rewrite (Z.eqb_sym 0). done.
Qed.

Lemma attention_mask_of_segment_witness :
  get_attention_mask Examples.bert
    [pad_add_special_tokens Examples.bert [31; 32; 33] 10]
    = [[1; 1; 1; 1; 1; 1; 1; 1; 0; 0]]
  ∧ get_attention_mask Examples.roberta
      [pad_add_special_tokens Examples.roberta [31; 32; 33] 10]
      = [[1; 1; 1; 1; 1; 1; 1; 1; 1; 1]].
Proof.
  split.
  - apply (attention_mask_of_segment Examples.bert [31; 32; 33] 10);
      [discriminate | discriminate | reflexivity | repeat constructor].
  - apply (attention_mask_of_segment Examples.roberta [31; 32; 33] 10);
      [discriminate | discriminate | reflexivity | repeat constructor].
Defined.

(** ** The dataset's features *)

Lemma length_times v n : Z.of_nat (length (Dataset.times v n)) = Z.max n 0.
Proof. unfold Dataset.times. rewrite length_replicate. lia. Qed.

Lemma length_slice_to {A} (k : Z) (l : list A) :
  0 ≤ k → Z.of_nat (length (Py.slice_to k l)) = Z.min k (Z.of_nat (length l)).
Proof.
  intros Hk. unfold Py.slice_to.
  destruct (Z.leb_spec 0 k); [|lia]. rewrite length_take. lia.
Qed.

(** The three feature arrays of a row have one length, and with
    [pad_to_max] and [max_seq_len >= 2] that length is [max_seq_len], so
    that the rows of a dataset stack into a rectangular batch. *)
Theorem get_features_width {Tok} (x : string) (tokenizer : Dataset.Tokenizer Tok)
    (max_seq_len : Z) (pad_to_max : bool) :
  let f := Dataset.get_features x tokenizer max_seq_len pad_to_max in
  length (Dataset.f_token_type_ids f) = length (Dataset.input_ids f)
  ∧ length (Dataset.f_attention_mask f) = length (Dataset.input_ids f)
  ∧ (pad_to_max = true → 2 ≤ max_seq_len →
     Z.of_nat (length (Dataset.input_ids f)) = max_seq_len).
Proof.
  unfold Dataset.get_features.
  set (tokens := [Dataset.tk_cls_token tokenizer]
                   ++ Py.slice_to (max_seq_len - 2) (Dataset.tokenize tokenizer x)
                   ++ [Dataset.tk_sep_token tokenizer]).
  assert (Htimes : ∀ v, length (Dataset.times v (Z.of_nat (length tokens)))
                        = length tokens).
  { intros v. apply Nat2Z.inj. rewrite length_times. lia. }
  destruct pad_to_max;
    cbn [Dataset.input_ids Dataset.f_token_type_ids Dataset.f_attention_mask].
  - rewrite !length_app, !Htimes, length_map.
    split; [|split].
    + f_equal. apply Nat2Z.inj. by rewrite !length_times.
    + f_equal. apply Nat2Z.inj. by rewrite !length_times.
    + intros _ Hmax. rewrite Nat2Z.inj_add, length_times.
      assert (Z.of_nat (length tokens) ≤ max_seq_len); [|lia].
      unfold tokens. rewrite !length_app, Nat2Z.inj_add, Nat2Z.inj_add.
      rewrite length_slice_to by lia. simpl. lia.
  - rewrite !Htimes, length_map. split; [done|]. split; [done|]. done.
Qed.

Lemma get_features_width_witness :
  length (Dataset.input_ids
            (Dataset.get_features "ACGTAC" char_tokenizer 12 true)) = 12%nat
  ∧ length (Dataset.input_ids
              (Dataset.get_features "ACGTACGTACGTACGT" char_tokenizer 12 true))
      = 12%nat.
Proof.
  split; apply Nat2Z.inj.
  - apply (get_features_width "ACGTAC" char_tokenizer 12 true); [reflexivity | lia].
  - apply (get_features_width "ACGTACGTACGTACGT" char_tokenizer 12 true);
      [reflexivity | lia].
Defined.

(** The attention mask the dataset computes is the one the wrapper
    recomputes from the ids, as long as no token of the text, nor CLS or SEP,
    has the pad id. *)
Theorem dataset_mask_agrees {Tok} (self : RMTEncoder) (x : string)
    (tokenizer : Dataset.Tokenizer Tok) (max_seq_len : Z) (pad_to_max : bool) :
  pad_token_id self = Dataset.tk_pad_token_id tokenizer →
  Dataset.cls_token_id tokenizer ≠ Dataset.tk_pad_token_id tokenizer →
  Dataset.sep_token_id tokenizer ≠ Dataset.tk_pad_token_id tokenizer →
  Forall (fun t => Dataset.convert_tokens_to_ids tokenizer t
                   ≠ Dataset.tk_pad_token_id tokenizer)
    (Dataset.tokenize tokenizer x) →
  let f := Dataset.get_features x tokenizer max_seq_len pad_to_max in
  get_attention_mask self [Dataset.input_ids f] = [Dataset.f_attention_mask f].
Proof.
  intros Hpad Hcls Hsep Htokens. unfold Dataset.get_features.
  set (tokens := [Dataset.tk_cls_token tokenizer]
                   ++ Py.slice_to (max_seq_len - 2) (Dataset.tokenize tokenizer x)
                   ++ [Dataset.tk_sep_token tokenizer]).
  assert (Hreal : map (fun t => if t =? pad_token_id self then 0 else 1)
                    (map (Dataset.convert_tokens_to_ids tokenizer) tokens)
                  = Dataset.times 1 (Z.of_nat (length tokens))).
  { unfold Dataset.times. rewrite Nat2Z.id, <- (length_map
      (Dataset.convert_tokens_to_ids tokenizer)).
    apply map_const_replicate. intros t Ht.
    destruct (Z.eqb_spec t (pad_token_id self)) as [->|]; [|done].
    exfalso. apply list_elem_of_fmap in Ht as (tok & Heq & Hin).
    unfold tokens in Hin.
    rewrite !elem_of_app, !list_elem_of_singleton in Hin.
    rewrite Hpad in Heq.
    destruct Hin as [->|[Hin| ->]]; [by apply Hcls | | by apply Hsep].
    rewrite Forall_forall in Htokens. apply (Htokens tok); [|done].
    unfold Py.slice_to in Hin. destruct (0 <=? _); by eapply subseteq_take. }
  clearbody tokens. unfold get_attention_mask.
  destruct pad_to_max; cbn [Dataset.input_ids Dataset.f_attention_mask map];
    f_equal; [|done].
  rewrite map_app, Hreal. f_equal.
  unfold Dataset.times. rewrite (map_const_replicate _ 0).
  - by rewrite length_replicate.
  - intros t Ht. apply elem_of_replicate in Ht as [-> _].
    by rewrite Hpad, Z.eqb_refl.
Qed.

Lemma dataset_mask_agrees_witness :
  get_attention_mask (set_params 1000 2 char_tokenizer 10 3 (-1) true)
    [Dataset.input_ids (Dataset.get_features "ACGT" char_tokenizer 8 true)]
  = [[1; 1; 1; 1; 1; 1; 0; 0]].
Proof.
  apply (dataset_mask_agrees (set_params 1000 2 char_tokenizer 10 3 (-1) true)
           "ACGT" char_tokenizer 8 true);
    [reflexivity | discriminate | discriminate | repeat constructor; discriminate].
Defined.

(** Stripping undoes what the dataset adds: from a feature row the wrapper
    recovers the ids of the text's tokens, cut to [max_seq_len - 2], provided
    no such id is a special id. *)
Lemma strip_get_features {Tok} (self : RMTEncoder) (x : string)
    (tokenizer : Dataset.Tokenizer Tok) (max_seq_len : Z) (pad_to_max : bool) :
  pad_token_id self = Dataset.tk_pad_token_id tokenizer →
  cls_token self = Dataset.cls_token_id tokenizer →
  sep_token self = Dataset.sep_token_id tokenizer →
  Forall (fun t => keep_token self (Dataset.convert_tokens_to_ids tokenizer t)
                   = true) (Dataset.tokenize tokenizer x) →
  strip_special self
    (Dataset.input_ids (Dataset.get_features x tokenizer max_seq_len pad_to_max))
  = map (Dataset.convert_tokens_to_ids tokenizer)
      (Py.slice_to (max_seq_len - 2) (Dataset.tokenize tokenizer x)).
Proof.
  intros Hpad Hcls Hsep Htokens.
  assert (Hdrop_cls : keep_token self (Dataset.cls_token_id tokenizer) = false).
  { unfold keep_token. by rewrite <- Hcls, Z.eqb_refl, andb_false_r. }
  assert (Hdrop_sep : keep_token self (Dataset.sep_token_id tokenizer) = false).
  { unfold keep_token. by rewrite <- Hsep, Z.eqb_refl, andb_false_r. }
  assert (Hdrop_pad : ∀ n, List.filter (keep_token self)
            (Dataset.times (Dataset.tk_pad_token_id tokenizer) n) = []).
  { intros n. unfold Dataset.times. rewrite <- Hpad.
    induction (Z.to_nat n) as [|k IH]; [done|]. simpl.
    unfold keep_token at 1. by rewrite Z.eqb_refl. }
  assert (Hkeep : List.filter (keep_token self)
            (map (Dataset.convert_tokens_to_ids tokenizer)
               (Py.slice_to (max_seq_len - 2) (Dataset.tokenize tokenizer x)))
          = map (Dataset.convert_tokens_to_ids tokenizer)
              (Py.slice_to (max_seq_len - 2) (Dataset.tokenize tokenizer x))).
  { assert (Forall (fun t => keep_token self
                       (Dataset.convert_tokens_to_ids tokenizer t) = true)
              (Py.slice_to (max_seq_len - 2) (Dataset.tokenize tokenizer x))) as H.
    { unfold Py.slice_to. destruct (0 <=? _); by apply Forall_take. }
    induction H as [|t l Ht _ IH]; [done|]. simpl. by rewrite Ht, IH. }
  assert (Hreal : List.filter (keep_token self)
            (map (Dataset.convert_tokens_to_ids tokenizer)
               ([Dataset.tk_cls_token tokenizer]
                  ++ Py.slice_to (max_seq_len - 2) (Dataset.tokenize tokenizer x)
                  ++ [Dataset.tk_sep_token tokenizer]))
          = map (Dataset.convert_tokens_to_ids tokenizer)
              (Py.slice_to (max_seq_len - 2) (Dataset.tokenize tokenizer x))).
  { rewrite !map_app. cbn [map app].
    fold (Dataset.cls_token_id tokenizer) (Dataset.sep_token_id tokenizer).
    cbn [List.filter]. rewrite Hdrop_cls, List.filter_app, Hkeep.
    cbn [List.filter]. by rewrite Hdrop_sep, app_nil_r. }
  unfold strip_special, Dataset.get_features.
  destruct pad_to_max; cbn [Dataset.input_ids].
  - by rewrite List.filter_app, Hreal, Hdrop_pad, app_nil_r.
  - exact Hreal.
Qed.

(** From text to segments: on a batch of feature rows built by the dataset,
    the contents of a row's segments, joined in slot order, are the ids of
    the text's tokens, cut first to [max_seq_len - 2] by the dataset and then
    to [segment_size * max_n_segments] by the wrapper. *)
Theorem text_to_segments {Tok} (tokenizer : Dataset.Tokenizer Tok)
    (vocab : Z) (n_mem : nat) (width n_slots depth : Z) (sum : bool)
    (max_seq_len : Z) (pad_to_max : bool)
    (texts : list string) (segmented : list (list (option (list Z))))
    (b : nat) (x : string) :
  let self := set_params vocab n_mem tokenizer width n_slots depth sum in
  Forall (fun x =>
            Forall (fun t => keep_token self
                               (Dataset.convert_tokens_to_ids tokenizer t) = true)
              (Dataset.tokenize tokenizer x)) texts →
  pad_and_segment self
    (map (fun x => Dataset.input_ids
                     (Dataset.get_features x tokenizer max_seq_len pad_to_max))
         texts) = Ok segmented →
  0 ≤ n_slots →
  texts !! b = Some x →
  concat (map (segment_content self) (slots_of b segmented))
    = take (Z.to_nat (segment_size self * n_slots))
        (map (Dataset.convert_tokens_to_ids tokenizer)
           (Py.slice_to (max_seq_len - 2) (Dataset.tokenize tokenizer x))).
Proof.
  intros self Htexts Hseg Hm Hb.
  assert (map (fun x => Dataset.input_ids
                 (Dataset.get_features x tokenizer max_seq_len pad_to_max)) texts
            !! b = Some (Dataset.input_ids
                 (Dataset.get_features x tokenizer max_seq_len pad_to_max)))
    as Hrow by by rewrite list_lookup_fmap, Hb.
  destruct (slots_of_pad_and_segment _ _ _ _ _ Hseg Hrow)
    as (Hs & Hne & chunks & Hcat & Hn & _ & ->).
  pose proof (chunk_count_le_slots self
                (Dataset.input_ids
                   (Dataset.get_features x tokenizer max_seq_len pad_to_max))
                Hs Hm) as Hle.
  rewrite <- Hn in Hle.
  assert (Hms : max_n_segments self = n_slots) by reflexivity.
  replace (length chunks - Z.to_nat (max_n_segments self))%nat with 0%nat by lia.
  rewrite drop_0, (contents_of_segments self _ _ Hcat), Hcat.
  unfold truncated, Py.slice_to at 1. rewrite Hms.
  destruct (Z.leb_spec 0 (segment_size self * n_slots)); [|nia].
  rewrite (strip_get_features self x tokenizer); try done.
  rewrite Forall_forall in Htexts. apply Htexts.
  by eapply list_elem_of_lookup_2.
Qed.

Lemma text_to_segments_witness :
  ∃ segmented,
    pad_and_segment (set_params 1000 2 char_tokenizer 10 3 (-1) true)
      (map (fun x => Dataset.input_ids
                       (Dataset.get_features x char_tokenizer 20 true))
           ["ACGTACGTACGT"; "TTGACA"]) = Ok segmented
    ∧ concat (map (segment_content
                     (set_params 1000 2 char_tokenizer 10 3 (-1) true))
                (slots_of 1 segmented))
        = [84; 84; 71; 65; 67; 65].
Proof.
  eexists. split; [reflexivity|].
  apply (text_to_segments char_tokenizer 1000 2 10 3 (-1) true 20 true
           ["ACGTACGTACGT"; "TTGACA"] _ 1 "TTGACA");
    [repeat constructor | reflexivity | lia | reflexivity].
Defined.

(** ** Batches on which the forward pass aborts *)



Section AbortProperties.
Context `{M : BaseModel}.
Implicit Types (self : RMTEncoder) (kw : kwargs) (st : loop_state).

(** Slots without segments leave everything but the gradient graph as it
    was. *)
Lemma run_segments_skipped self (n : nat) kw (i : nat) skipped st :
  Forall (Forall (.= None)) skipped →
  ∃ st', run_segments self n kw i skipped st = Ok st'
         ∧ st_losses st' = st_losses st ∧ st_out st' = st_out st
         ∧ st_calls st' = st_calls st
         ∧ mem_rows (st_memory st') = mem_rows (st_memory st).
Proof.
  intros Hskipped. revert i st.
  induction Hskipped as [|s skipped Hs _ IH]; intros i st; simpl;
    [by exists st|].
  destruct (IH (S i) {| st_memory := memory_at self n i st;
                        st_losses := st_losses st; st_out := st_out st;
                        st_calls := st_calls st |})
    as (st' & Hrun & Hl & Ho & Hc & Hm).
  exists st'. rewrite segment_step_skip by done. simpl in *.
  by rewrite mem_rows_memory_at in Hm.
Qed.

(** The loop raises what the first slot with a segment raises. *)
Lemma run_segments_raise self (n : nat) kw (i : nat) skipped slot rest st e :
  Forall (Forall (.= None)) skipped →
  (∀ st', mem_rows (st_memory st') = mem_rows (st_memory st) →
          segment_step self n kw (i + length skipped) slot st' = Raise e) →
  run_segments self n kw i (skipped ++ slot :: rest) st = Raise e.
Proof.
  intros Hskipped. revert i st.
  induction Hskipped as [|s skipped Hs _ IH]; intros i st Hstep; simpl.
  - rewrite Nat.add_0_r in Hstep. by rewrite Hstep.
  - rewrite segment_step_skip by done. simpl. apply IH.
    intros st' Hst'. simpl in Hst'. rewrite mem_rows_memory_at in Hst'.
    replace (S i + length skipped)%nat with (i + S (length skipped))%nat by lia.
    by apply Hstep.
Qed.

(** When no slot holds a segment, as on an empty batch, [out] is never
    assigned and [__call__] raises: in [torch.stack] of no losses when hidden
    states were asked for and [sum_loss] is set, on the unbound [out]
    otherwise. *)
Theorem call_without_segments_raises self input_ids kw segmented :
  pad_and_segment self input_ids = Ok segmented →
  Forall (Forall (.= None)) segmented →
  __call__ self input_ids kw
    = Raise (if kw_output_hidden_states kw && sum_loss self
             then RuntimeError else UnboundLocalError).
Proof.
  intros Hseg Hnone. unfold __call__, run_forward. rewrite Hseg. simpl.
  destruct (run_segments_skipped self (length segmented) kw 0 segmented
              (initial_state self (length input_ids)) Hnone)
    as (st & -> & Hl & Ho & _). simpl in *.
  unfold finish. rewrite Ho, Hl.
  destruct (kw_output_hidden_states kw), (sum_loss self); reflexivity.
Qed.

Lemma pad_and_segment_nil self :
  pad_and_segment self [] = Ok (right_align (max_n_segments self) [])
  ∧ Forall (Forall (.= None)) (right_align (max_n_segments self) ([] : list (list (list Z)))).
Proof.
  split; [done|]. unfold right_align.
  apply Forall_reverse, Forall_fmap, Forall_forall. intros i _. constructor.
Qed.

End AbortProperties.

Lemma call_without_segments_raises_witness :
  @__call__ Examples.toy Examples.bert [] (Examples.toy_kwargs [])
    = Raise UnboundLocalError.
Proof.
  apply (@call_without_segments_raises Examples.toy Examples.bert []
           (Examples.toy_kwargs []) _ (proj1 (pad_and_segment_nil Examples.bert))).
  apply pad_and_segment_nil.
Defined.

Lemma n_seg_length self seq segs :
  segment_sequence self seq = Ok segs → Z.of_nat (length segs) = n_seg self seq.
Proof.
  intros Hseg.
  apply segment_sequence_Ok in Hseg as (_ & _ & chunks & -> & _ & Hn & _).
  by rewrite length_map.
Qed.



(** ** The fields of the output *)

Section OutputFields.
Context `{M : BaseModel}.
Implicit Types (self : RMTEncoder) (kw : kwargs) (st : loop_state).
Implicit Types (o : gmap string (value Vec Tensor)).

Lemma drop_hiddens_lookup o key :
  drop_hiddens o !! key
    = (fun v => if str_contains "hidden_state" key then VNone else v)
        <$> o !! key.
Proof.
  unfold drop_hiddens. rewrite map_lookup_imap. by destruct (o !! key).
Qed.

Lemma finish_lookup self kw st out o key :
  finish self kw st = Ok out → st_out st = Some o →
  (∀ k : nat, key ≠ loss_key k) →
  (sum_loss self = true → key ≠ "loss") →
  out !! key
    = if kw_output_hidden_states kw then o !! key
      else (fun v => if str_contains "hidden_state" key then VNone else v)
             <$> o !! key.
Proof.
  unfold finish. intros H Ho Hkey Hloss. rewrite Ho in H.
  apply rbind_Ok in H as (out1 & Hout1 & H).
  apply rbind_Ok in H as (out2 & Hout2 & H).
  apply rbind_Ok in H as (out3 & Hout3 & H).
  destruct out3 as [o3|]; [|discriminate]. inversion H; subst o3; clear H.
  assert (∃ o1, out1 = Some o1
                ∧ o1 !! key = if kw_output_hidden_states kw then o !! key
                              else (fun v => if str_contains "hidden_state" key
                                             then VNone else v) <$> o !! key)
    as (o1 & -> & Ho1).
  { destruct (kw_output_hidden_states kw); simpl in Hout1; inversion Hout1;
      eauto using drop_hiddens_lookup. }
  apply set_loss_fields_Some in Hout2 as (o2 & ts & -> & _ & _ & Hother).
  rewrite <- Ho1, <- (Hother key) by (intros k; apply Hkey).
  destruct (sum_loss self).
  - apply rbind_Ok in Hout3 as (total & _ & Hout3). inversion Hout3; subst out.
    apply lookup_insert_ne. intros Heq. by apply Hloss.
  - by inversion Hout3.
Qed.

(** Apart from [loss] and the [loss_i], every field of the returned output
    is the field of the encoder's output on the last slot it was called on;
    fields whose name mentions hidden states are set to [None] unless the
    caller asked for hidden states. *)
Theorem output_fields_of_last_call self input_ids kw out :
  __call__ self input_ids kw = Ok out →
  ∃ st c,
    run_forward self input_ids kw = Ok st
    ∧ last (st_calls st) = Some c
    ∧ forward (call_input c) = Ok (call_output c)
    ∧ ∀ key, (∀ k : nat, key ≠ loss_key k) →
        (sum_loss self = true → key ≠ "loss") →
        out !! key
          = if kw_output_hidden_states kw then call_output c !! key
            else (fun v => if str_contains "hidden_state" key then VNone else v)
                   <$> call_output c !! key.
Proof.
  intros Hcall. unfold __call__ in Hcall.
  apply rbind_Ok in Hcall as (st & Hrun & Hfin).
  pose proof (finish_Ok _ _ _ _ Hfin) as (o & ts & Hout & _).
  pose proof (run_forward_trace _ _ _ _ Hrun) as (segmented & _ & _ & _ & Ho & Hfw).
  rewrite Hout in Ho. destruct (last (st_calls st)) as [c|] eqn:Hlast;
    [|discriminate]. inversion Ho; subst o.
  exists st, c. split; [done|]. split; [done|]. split.
  { rewrite Forall_forall in Hfw. apply Hfw. by apply last_Some_elem_of. }
  intros key Hkey Hloss. by eapply finish_lookup.
Qed.

End OutputFields.

Lemma output_fields_of_last_call_witness :
  ∃ out,
    @__call__ Examples.toy Examples.bert [Examples.seqA] (Examples.toy_kwargs [1])
      = Ok out
    ∧ (∃ c, out !! "logits" = @call_output Examples.toy c !! "logits")
    ∧ out !! "logits" = Some (VTensor 3%float)
    ∧ out !! "hidden_states" = Some VNone.
Proof.
  eexists. split; [reflexivity|]. split.
  - destruct (@output_fields_of_last_call Examples.toy Examples.bert
                [Examples.seqA] (Examples.toy_kwargs [1]) _ eq_refl)
      as (st & c & _ & _ & _ & Hkeys).
    exists c. etransitivity; [apply (Hkeys "logits")|].
    + intros k. unfold loss_key. simpl. discriminate.
    + discriminate.
    + by destruct (call_output c !! "logits").
  - split; reflexivity.
Defined.

(** ** Index assignment *)

Lemma foldl_insert_seq {A} (vals row : list A) (j : nat) :
  let r := foldl (fun r pv => <[pv.1 := pv.2]> r) row
             (zip (seq j (length vals)) vals) in
  length r = length row
  ∧ (∀ i : nat, (j + i < length row)%nat → (i < length vals)%nat →
       r !! (j + i)%nat = vals !! i)
  ∧ (∀ p : nat, (p < j ∨ j + length vals ≤ p)%nat → r !! p = row !! p).
Proof.
  revert row j. induction vals as [|v vals IH]; intros row j; simpl.
  - split; [done|]. split; [intros; lia | done].
  - destruct (IH (<[j:=v]> row) (S j)) as (Hlen & Hin & Hout).
    rewrite length_insert in Hlen, Hin.
    split; [done|]. split.
    + intros [|i] Hj Hi.
      * rewrite Nat.add_0_r, Hout by lia. simpl.
        apply list_lookup_insert_eq. lia.
      * replace (j + S i)%nat with (S j + i)%nat by lia.
        apply Hin; simpl in *; lia.
    + intros p Hp. rewrite Hout by lia. apply list_lookup_insert_ne. lia.
Qed.

Lemma assign_row_Ok {A} (j k : nat) (row vals r : list A) :
  Torch.assign_row (seq j k) row vals = Ok r →
  length vals = k ∧ length r = length row
  ∧ (0 < k → j + k ≤ length row)%nat
  ∧ (∀ i : nat, (i < k)%nat → r !! (j + i)%nat = vals !! i)
  ∧ (∀ p : nat, (p < j ∨ j + k ≤ p)%nat → r !! p = row !! p).
Proof.
  unfold Torch.assign_row. intros H.
  destruct (forallb _ _) eqn:Hpos; [|discriminate]. simpl in H.
  destruct (Nat.eqb_spec (length vals) (length (seq j k))) as [Hlen|];
    [|discriminate]. simpl in H. inversion H; subst r; clear H.
  rewrite length_seq in Hlen. subst k.
  rewrite forallb_forall in Hpos.
  assert (∀ i : nat, (i < length vals)%nat → (j + i < length row)%nat) as Hfit.
  { intros i Hi. apply Nat.ltb_lt, Hpos, in_seq. lia. }
  destruct (foldl_insert_seq vals row j) as (Hl & Hin & Hout).
  split; [done|]. split; [done|]. split.
  { intros Hk. specialize (Hfit (length vals - 1)%nat ltac:(lia)). lia. }
  split; [|done]. intros i Hi. apply Hin; [by apply Hfit | done].
Qed.


Lemma assign_columns_Ok {A} (pos : list nat) (t src res : list (list A)) :
  Torch.assign_columns pos t src = Ok res →
  length res = length t ∧ length src = length t
  ∧ ∀ (b : nat) r, res !! b = Some r →
      ∃ row vals, t !! b = Some row ∧ src !! b = Some vals
                  ∧ Torch.assign_row pos row vals = Ok r.
Proof.
  revert src res. induction t as [|row t IH]; intros [|vals src] res H;
    simpl in H; try discriminate.
  - inversion H; subst. repeat split; try done.
  - apply rbind_Ok in H as (r0 & Hr0 & H).
    apply rbind_Ok in H as (rs & Hrs & H). inversion H; subst res.
    apply IH in Hrs as (Hl1 & Hl2 & Hrows). simpl.
    split; [lia|]. split; [lia|].
    intros [|b] r Hb; simpl in *.
    + inversion Hb; subst. eauto.
    + by apply Hrows.
Qed.


(** ** Fully populated slots *)

Lemma mask_of_populated (rows : list (list Z)) :
  map is_tensor (map Some rows) = replicate (length rows) true.
Proof. induction rows as [|r rows IH]; [done|]. simpl. by rewrite IH. Qed.

Lemma count_true_replicate (n : nat) :
  Torch.count_true (replicate n true) = n.
Proof.
  unfold Torch.count_true. induction n as [|n IH]; [done|]. simpl. by rewrite IH.
Qed.

Lemma select_replicate_true {A} (t : list A) :
  Torch.select (replicate (length t) true) t = t.
Proof. induction t as [|x t IH]; [done|]. simpl. by rewrite IH. Qed.

Lemma mask_select_populated {A} (n : nat) (t res : list A) :
  Torch.mask_select (replicate n true) t = Ok res → length t = n ∧ res = t.
Proof.
  unfold Torch.mask_select. rewrite length_replicate.
  destruct (Nat.eqb_spec n (length t)) as [->|]; [|discriminate].
  intros H. inversion H. by rewrite select_replicate_true.
Qed.

Lemma scatter_replicate_true {A} (t src : list A) :
  length src = length t →
  Torch.scatter (replicate (length t) true) t src = src.
Proof.
  revert src. induction t as [|x t IH]; intros [|v src] Hlen; simpl in *;
    try lia; [done|]. f_equal. apply IH. lia.
Qed.

Lemma mask_assign_populated {A} (t src res : list A) :
  Torch.mask_assign (replicate (length t) true) t src = Ok res →
  length src = length t → res = src.
Proof.
  unfold Torch.mask_assign. rewrite length_replicate, Nat.eqb_refl. simpl.
  rewrite count_true_replicate. intros H Hlen.
  rewrite Hlen, Nat.eqb_refl in H. inversion H.
  by apply scatter_replicate_true.
Qed.

Lemma stack_populated (rows : list (list Z)) stacked :
  Torch.stack (map Some rows) = Ok stacked → stacked = rows.
Proof.
  intros H. apply stack_Ok in H as [Heq _].
  by apply (inj (map Some)) in Heq.
Qed.

(** ** What the encoder is given *)

Section EncoderInputs.
Context `{M : BaseModel}.
Implicit Types (self : RMTEncoder) (kw : kwargs) (st : loop_state).

(** A slot that holds a segment for every batch element, step by step. *)
Lemma segment_step_populated self (n : nat) kw (i : nat) (rows : list (list Z))
    st st' :
  rows ≠ [] →
  segment_step self n kw i (map Some rows) st = Ok st' →
  ∃ ls embeds out hidden new_memory rows',
    kw_labels kw = Some ls ∧ length ls = length rows
    ∧ length (mem_rows (st_memory st)) = length rows
    ∧ Torch.assign_columns (memory_position self)
        (map (map embeddings) rows) (mem_rows (st_memory st)) = Ok embeds
    ∧ forward {| inputs_embeds := embeds;
                 attention_mask := get_attention_mask self rows;
                 token_type_ids := get_token_type_ids rows;
                 labels := ls |} = Ok out
    ∧ last_hidden_state out = Ok hidden
    ∧ for_each (Torch.index_row (memory_position self)) hidden = Ok new_memory
    ∧ Torch.mask_assign (replicate (length rows) true)
        (mem_rows (st_memory st)) new_memory = Ok rows'
    ∧ st_calls st' = st_calls st ++
        [{| call_seg := i; call_graph := mem_graph (memory_at self n i st);
            call_input := {| inputs_embeds := embeds;
                             attention_mask := get_attention_mask self rows;
                             token_type_ids := get_token_type_ids rows;
                             labels := ls |};
            call_output := out |}]
    ∧ mem_rows (st_memory st') = rows'.
Proof.
  intros Hne. unfold segment_step. fold (memory_at self n i st).
  rewrite mask_of_populated, count_true_replicate.
  destruct (Nat.eqb_spec (length rows) 0) as [H0|_].
  { by destruct rows. }
  intros H.
  apply rbind_Ok in H as (stacked & Hstack & H).
  apply stack_populated in Hstack as ->.
  apply rbind_Ok in H as (input_ids & Hids & H).
  apply mask_select_populated in Hids as [_ ->].
  apply rbind_Ok in H as (all_labels & Hlabels & H).
  apply rbind_Ok in H as (seg_labels & Hseg_labels & H).
  apply mask_select_populated in Hseg_labels as [Hllen ->].
  apply rbind_Ok in H as (active_memory & Hactive & H).
  apply mask_select_populated in Hactive as [Hmlen ->].
  rewrite mem_rows_memory_at in *.
  apply rbind_Ok in H as (embeds & Hembeds & H).
  apply rbind_Ok in H as (out & Hout & H).
  apply rbind_Ok in H as (hidden & Hhidden & H).
  apply rbind_Ok in H as (new_memory & Hnew & H).
  apply rbind_Ok in H as (rows' & Hrows & H).
  apply rbind_Ok in H as (loss & Hloss & H).
  inversion H; subst st'; clear H. simpl.
  exists all_labels, embeds, out, hidden, new_memory, rows'.
  destruct (kw_labels kw) as [ls|]; [|discriminate]. inversion Hlabels; subst ls.
  repeat split; done.
Qed.

(** Rows of the input embeddings: the table lookup of the segment's ids,
    with the memory row written over the memory positions. *)
Lemma inputs_embeds_row self (rows : list (list Z)) (memory embeds : list (list Vec))
    (b : nat) (row : list Vec) :
  Torch.assign_columns (memory_position self) (map (map embeddings) rows) memory
    = Ok embeds →
  embeds !! b = Some row →
  ∃ seg mrow,
    rows !! b = Some seg ∧ memory !! b = Some mrow
    ∧ length mrow = num_mem_tokens self ∧ length row = length seg
    ∧ (∀ i : nat, (i < num_mem_tokens self)%nat → row !! S i = mrow !! i)
    ∧ (∀ p : nat, (p = 0 ∨ num_mem_tokens self < p)%nat →
         row !! p = embeddings <$> seg !! p).
Proof.
  intros Hassign Hb.
  apply assign_columns_Ok in Hassign as (_ & _ & Hrows).
  destruct (Hrows b row Hb) as (erow & mrow & Herow & Hmrow & Hrow).
  rewrite list_lookup_fmap in Herow.
  destruct (rows !! b) as [seg|]; [|discriminate]. inversion Herow; subst erow.
  unfold memory_position in Hrow.
  apply assign_row_Ok in Hrow as (Hlen & Hrlen & _ & Hin & Hout).
  exists seg, mrow. rewrite length_map in Hrlen.
  split; [done|]. split; [done|]. split; [done|]. split; [done|]. split.
  - intros i Hi. by apply (Hin i).
  - intros p Hp. rewrite Hout by lia. apply list_lookup_fmap.
Qed.

(** Every encoder call of a forward pass is made on a slot that holds a
    segment of every row, with the attention mask of those segments, token
    types all zero, the caller's labels, and input embeddings that are the
    table lookups of the segments' ids outside the memory positions. *)
Theorem encoder_inputs self input_ids kw st segmented c :
  run_forward self input_ids kw = Ok st →
  pad_and_segment self input_ids = Ok segmented →
  c ∈ st_calls st →
  ∃ rows,
    segmented !! call_seg c = Some (map Some rows)
    ∧ length rows = length input_ids
    ∧ attention_mask (call_input c) = get_attention_mask self rows
    ∧ token_type_ids (call_input c) = get_token_type_ids rows
    ∧ kw_labels kw = Some (labels (call_input c))
    ∧ length (inputs_embeds (call_input c)) = length rows
    ∧ ∀ (b : nat) row seg,
        inputs_embeds (call_input c) !! b = Some row → rows !! b = Some seg →
        length row = length seg
        ∧ ∀ p : nat, (p = 0 ∨ num_mem_tokens self < p)%nat →
            row !! p = embeddings <$> seg !! p.
Proof.
  intros Hrun Hseg Hc.
  apply run_forward_Ok in Hrun as (segmented' & Hseg' & Hrun).
  rewrite Hseg in Hseg'. inversion Hseg'; subst segmented'.
  pose proof (pad_and_segment_shape _ _ _ Hseg) as [_ Hwidth].
  revert c Hc. apply Forall_forall.
  eapply (run_segments_inv self kw segmented (fun _ st => Forall _ (st_calls st)));
    [|exact Hrun|by constructor].
  clear st Hrun. intros i slot st st' Hi Hstep Hcalls.
  pose proof (segment_step_inv _ _ _ _ _ _ _ Hstep)
    as [[_ ->]|(rows & c & loss & nm & r' & -> & Hne & _)]; [done|].
  apply segment_step_populated in Hstep
    as (ls & embeds & out & hidden & new_memory & rows' & Hls & Hllen & Hmlen
        & Hembeds & Hfw & _ & _ & _ & -> & _); [|done].
  apply Forall_app. split; [done|]. constructor; [|done]. simpl.
  exists rows. split; [done|]. split.
  { rewrite Forall_forall in Hwidth.
    rewrite <- (Hwidth (map Some rows)) by by eapply list_elem_of_lookup_2.
    by rewrite length_map. }
  split; [done|]. split; [done|]. split; [done|]. split.
  { apply assign_columns_Ok in Hembeds as (Hl & _). by rewrite Hl, length_map. }
  intros b row seg Hrow Hsegb.
  destruct (inputs_embeds_row _ _ _ _ _ _ Hembeds Hrow)
    as (seg' & mrow & Hseg'' & _ & _ & Hlen & _ & Hout).
  rewrite Hsegb in Hseg''. inversion Hseg''; subst seg'. done.
Qed.

End EncoderInputs.

Lemma encoder_inputs_witness :
  ∃ st c,
    @run_forward Examples.toy Examples.bert [Examples.seqB]
      (Examples.toy_kwargs [1]) = Ok st
    ∧ st_calls st = [c]
    ∧ attention_mask (call_input c) = [[1; 1; 1; 1; 1; 1; 1; 1; 0; 0]]
    ∧ ∃ rows, attention_mask (call_input c)
              = get_attention_mask Examples.bert rows.
Proof.
  eexists _, _. split; [reflexivity|]. split; [reflexivity|].
  split; [reflexivity|].
  destruct (@encoder_inputs Examples.toy Examples.bert [Examples.seqB]
              (Examples.toy_kwargs [1]) _ _ _ eq_refl eq_refl
              ltac:(by left))
    as (rows & _ & _ & Hmask & _).
  exists rows. exact Hmask.
Defined.

(** ** The recurrence on the memory *)

Lemma index_row_Ok {A} (j k : nat) (row vals : list A) :
  Torch.index_row (seq j k) row = Ok vals →
  length vals = k
  ∧ ∀ i : nat, (i < k)%nat → vals !! i = row !! (j + i)%nat ∧ is_Some (vals !! i).
Proof.
  unfold Torch.index_row. intros H.
  pose proof (for_each_length _ _ _ H) as Hlen. rewrite length_seq in Hlen.
  split; [done|]. intros i Hi.
  destruct (for_each_lookup _ _ _ i (j + i)%nat H) as (v & Hv & Hvi).
  { by apply lookup_seq_lt. }
  rewrite Hvi. destruct (row !! (j + i)%nat); inversion Hv; subst. eauto.
Qed.

Section MemoryRecurrence.
Context `{M : BaseModel}.
Implicit Types (self : RMTEncoder) (kw : kwargs) (st : loop_state).

Lemma set_memory_lookup self (i : nat) :
  (i < num_mem_tokens self)%nat →
  set_memory self !! i = Some (embeddings (vocab_size self + Z.of_nat i)).
Proof.
  intros Hi. unfold set_memory, mem_token_ids.
  by rewrite !list_lookup_fmap, lookup_seq_lt.
Qed.

(** The memory is threaded from call to call: the first encoder call of a
    forward pass finds the embeddings of the memory tokens at the memory
    positions of its input embeddings, and every later call finds there what
    the final hidden states of the call before it held at the same
    positions. *)
Theorem memory_recurrence self input_ids kw st :
  run_forward self input_ids kw = Ok st →
  (∀ c (b : nat) row (i : nat),
     st_calls st !! 0%nat = Some c →
     inputs_embeds (call_input c) !! b = Some row →
     (i < num_mem_tokens self)%nat →
     row !! S i = Some (embeddings (vocab_size self + Z.of_nat i)))
  ∧ (∀ (k : nat) c c' hidden (b : nat) row hrow (i : nat),
       st_calls st !! k = Some c → st_calls st !! S k = Some c' →
       last_hidden_state (call_output c) = Ok hidden →
       length hidden = length input_ids →
       inputs_embeds (call_input c') !! b = Some row →
       hidden !! b = Some hrow →
       (i < num_mem_tokens self)%nat →
       row !! S i = hrow !! S i).
Proof.
  intros Hrun. apply run_forward_Ok in Hrun as (segmented & Hseg & Hrun).
  set (B := length input_ids) in *.
  pose (P := fun (_ : nat) st =>
    length (mem_rows (st_memory st)) = B
    ∧ (st_calls st = [] → mem_rows (st_memory st) = replicate B (set_memory self))
    ∧ (∀ c hidden (b : nat) hrow mrow (i : nat),
         last (st_calls st) = Some c →
         last_hidden_state (call_output c) = Ok hidden → length hidden = B →
         hidden !! b = Some hrow → mem_rows (st_memory st) !! b = Some mrow →
         (i < num_mem_tokens self)%nat → mrow !! i = hrow !! S i)
    ∧ (∀ c (b : nat) row (i : nat),
         st_calls st !! 0%nat = Some c →
         inputs_embeds (call_input c) !! b = Some row →
         (i < num_mem_tokens self)%nat →
         row !! S i = Some (embeddings (vocab_size self + Z.of_nat i)))
    ∧ (∀ (k : nat) c c' hidden (b : nat) row hrow (i : nat),
         st_calls st !! k = Some c → st_calls st !! S k = Some c' →
         last_hidden_state (call_output c) = Ok hidden → length hidden = B →
         inputs_embeds (call_input c') !! b = Some row →
         hidden !! b = Some hrow →
         (i < num_mem_tokens self)%nat →
         row !! S i = hrow !! S i)).
  assert (P (length segmented) st) as (_ & _ & _ & Hfirst & Hnext).
  2:{ split; [exact Hfirst | exact Hnext]. }
  eapply (run_segments_inv self kw segmented P); [|exact Hrun|].
  2:{ unfold P. simpl. rewrite length_replicate.
      split; [done|]. split; [done|]. split; [done|]. split; [done|].
      intros k c c' hidden b row hrow i Hk. done. }
  clear st Hrun. intros n slot st st' _ Hstep (Hlen & Hinit & Hlast & Hfirst & Hnext).
  pose proof (segment_step_inv _ _ _ _ _ _ _ Hstep)
    as [[_ ->]|(rows & c0 & loss & nm & r' & -> & Hne & _)].
  { unfold P. simpl. rewrite mem_rows_memory_at. done. }
  apply segment_step_populated in Hstep
    as (ls & embeds & out & hidden & new_memory & rows' & _ & _ & Hmlen
        & Hembeds & _ & Hhidden & Hnew & Hassign & Hcalls & Hrows'); [|done].
  set (c_new := {| call_seg := n;
                   call_graph := mem_graph (memory_at self (length segmented) n st);
                   call_input := {| inputs_embeds := embeds;
                                    attention_mask := get_attention_mask self rows;
                                    token_type_ids := get_token_type_ids rows;
                                    labels := ls |};
                   call_output := out |}) in *.
  (* what the new call reads at the memory positions *)
  assert (∀ (b : nat) row (i : nat),
            embeds !! b = Some row → (i < num_mem_tokens self)%nat →
            ∃ mrow, mem_rows (st_memory st) !! b = Some mrow
                    ∧ row !! S i = mrow !! i) as Hread.
  { intros b row i Hrow Hi.
    destruct (inputs_embeds_row _ _ _ _ _ _ Hembeds Hrow)
      as (seg & mrow & _ & Hmrow & _ & _ & Hin & _).
    exists mrow. split; [done|]. by apply Hin. }
  unfold P. rewrite Hcalls, Hrows'.
  split; [|split; [|split; [|split]]].
  - apply (mask_assign_Ok (fun _ => True)) in Hassign as [Hl _]. lia.
  - intros Hnil. by destruct (st_calls st).
  - intros c hidden' b hrow mrow i Hc Hhidden' Hhlen Hb Hmrow Hi.
    rewrite last_snoc in Hc. inversion Hc; subst c. simpl in Hhidden'.
    rewrite Hhidden in Hhidden'. inversion Hhidden'; subst hidden'.
    rewrite <- Hmlen in Hassign.
    apply mask_assign_populated in Hassign;
      [|apply for_each_length in Hnew; lia]. subst rows'.
    destruct (for_each_lookup _ _ _ _ _ Hnew Hb) as (y & Hy & Hyb).
    rewrite Hmrow in Hyb. inversion Hyb; subst y.
    unfold memory_position in Hy.
    apply index_row_Ok in Hy as [_ Hy]. by apply Hy.
  - intros c b row i Hc Hrow Hi.
    destruct (st_calls st) as [|c1 calls] eqn:Hcs.
    + simpl in Hc. inversion Hc; subst c. simpl in Hrow.
      destruct (Hread b row i Hrow Hi) as (mrow & Hmrow & ->).
      rewrite Hinit in Hmrow by done.
      apply lookup_replicate in Hmrow as [-> _].
      by apply set_memory_lookup.
    + simpl in Hc. inversion Hc; subst c. by eapply (Hfirst c1 b row i).
  - intros k c c' hidden' b row hrow i Hc Hc' Hhidden' Hhlen Hrow Hb Hi.
    destruct (decide (S k < length (st_calls st))%nat) as [Hlt|Hge].
    + rewrite lookup_app_l in Hc by lia. rewrite lookup_app_l in Hc' by lia.
      by eapply (Hnext k c c').
    + apply lookup_lt_Some in Hc' as Hk. rewrite length_app in Hk. simpl in Hk.
      assert (S k = length (st_calls st)) as Hk' by lia.
      rewrite Hk', list_lookup_middle in Hc' by done.
      inversion Hc'; subst c'. simpl in Hrow.
      rewrite lookup_app_l in Hc by lia.
      assert (last (st_calls st) = Some c) as Hlastc.
      { rewrite last_lookup. rewrite <- Hk'. done. }
      destruct (Hread b row i Hrow Hi) as (mrow & Hmrow & ->).
      by eapply (Hlast c hidden' b hrow mrow i).
Qed.

End MemoryRecurrence.

Lemma memory_recurrence_witness :
  ∃ st c0 c1 c2,
    @run_forward Examples.toy Examples.bert [Examples.seqA]
      (Examples.toy_kwargs [1]) = Ok st
    ∧ st_calls st = [c0; c1; c2]
    ∧ (∀ row, inputs_embeds (call_input c0) !! 0%nat = Some row →
              row !! 1%nat = Some 0%float)
    ∧ (inputs_embeds (call_input c1) ≫= take 3
         = [0%float; 1%float; 1%float]).
Proof.
  eexists _, _, _, _. split; [reflexivity|]. split; [reflexivity|].
  split; [|reflexivity].
  intros row Hrow.
  exact (proj1 (@memory_recurrence Examples.toy Examples.bert [Examples.seqA]
                  (Examples.toy_kwargs [1]) _ eq_refl)
           _ 0%nat row 0%nat eq_refl Hrow ltac:(simpl; lia)).
Defined.

(** ** Batches on which the forward pass returns *)


Lemma stack_total (rows : list (list Z)) (w : nat) :
  rows ≠ [] → Forall (fun r => length r = w) rows →
  Torch.stack (map Some rows) = Ok rows.
Proof.
  intros Hne Hw. unfold Torch.stack.
  assert (for_each (fun o : option (list Z) =>
                      match o with Some t => Ok t | None => Raise TypeError end)
                   (map Some rows) = Ok rows) as ->.
  { clear. induction rows as [|r rows IH]; [done|]. simpl. by rewrite IH. }
  simpl. destruct rows as [|r rows]; [done|].
  inversion Hw as [|? ? Hr Hrest]; subst.
  assert (forallb (fun r' => (length r' =? length r)%nat) rows = true) as ->;
    [|done].
  apply forallb_forall. intros r' Hr'. apply Nat.eqb_eq.
  rewrite Forall_forall in Hrest. apply Hrest. by apply list_elem_of_In.
Qed.

Lemma populated_rows (slot : list (option (list Z))) :
  Forall is_Some slot → ∃ rows, slot = map Some rows.
Proof.
  induction 1 as [|o slot [r ->] _ [rows ->]]; [by exists []|].
  by exists (r :: rows).
Qed.

(** Segments of a segmented batch are [input_size] wide. *)
Lemma slot_widths self input_ids segmented (i : nat) rows :
  pad_and_segment self input_ids = Ok segmented →
  segmented !! i = Some (map Some rows) →
  Forall (fun r => Z.of_nat (length r) = input_size self) rows.
Proof.
  intros Hseg Hslot. apply Forall_lookup. intros b seg Hb.
  apply pad_and_segment_Ok in Hseg as (sb & Hsb & ->).
  destruct (right_align_elem _ _ i b _ seg Hslot) as (segs & Hsegs & Hin).
  { by rewrite list_lookup_fmap, Hb. }
  destruct (lookup_lt_is_Some_2 input_ids b) as [seq Hseq].
  { apply lookup_lt_Some in Hsegs. apply for_each_length in Hsb. lia. }
  destruct (for_each_lookup _ _ _ _ _ Hsb Hseq) as (segs' & Hss & Hlook).
  rewrite Hsegs in Hlook. inversion Hlook; subst segs'.
  apply segment_sequence_Ok in Hss as (_ & _ & chunks & -> & _ & _ & Hw).
  apply list_elem_of_fmap in Hin as (chunk & -> & Hchunk).
  apply pad_add_special_tokens_length.
  rewrite Forall_forall in Hw. by apply Hw.
Qed.

(** In a batch whose rows all give [n] chunks, a slot is empty for every row
    or populated for every row. *)
Lemma uniform_batch_slots self input_ids segmented (n : Z) :
  pad_and_segment self input_ids = Ok segmented →
  0 ≤ max_n_segments self →
  Forall (fun seq => n_seg self seq = n) input_ids →
  (input_ids ≠ [] → n ≤ max_n_segments self)
  ∧ ∀ (i : nat) slot, segmented !! i = Some slot →
      if decide (max_n_segments self - n ≤ Z.of_nat i)
      then ∃ rows, slot = map Some rows ∧ length rows = length input_ids
      else Forall (.= None) slot.
Proof.
  intros Hseg Hm Huniform.
  pose proof (pad_and_segment_shape _ _ _ Hseg) as [Hslots Hwidth].
  pose proof (pad_and_segment_Ok _ _ _ Hseg) as (sb & Hsb & Hsegmented).
  pose proof (for_each_length _ _ _ Hsb) as Hsblen.
  assert (Hchunks : ∀ (b : nat) segs, sb !! b = Some segs →
                      Z.of_nat (length segs) = n).
  { intros b segs Hb.
    destruct (lookup_lt_is_Some_2 input_ids b) as [seq Hseq].
    { apply lookup_lt_Some in Hb. lia. }
    destruct (for_each_lookup _ _ _ _ _ Hsb Hseq) as (segs' & Hss & Hlook).
    rewrite Hb in Hlook. inversion Hlook; subst segs'.
    rewrite (n_seg_length _ _ _ Hss).
    rewrite Forall_forall in Huniform. apply Huniform.
    by eapply list_elem_of_lookup_2. }
  split.
  { intros Hne. destruct input_ids as [|seq rest]; [done|].
    destruct (for_each_lookup _ _ _ 0%nat seq Hsb eq_refl) as (segs & Hss & Hlook).
    rewrite <- (Hchunks _ _ Hlook).
    by apply (segment_sequence_count _ _ _ Hss ltac:(lia)). }
  intros i slot Hi.
  assert (i < Z.to_nat (max_n_segments self))%nat as Hilt.
  { apply lookup_lt_Some in Hi. lia. }
  assert (length slot = length input_ids) as Hlen.
  { rewrite Forall_forall in Hwidth. apply Hwidth.
    by eapply list_elem_of_lookup_2. }
  assert (∀ (b : nat) entry, slot !! b = Some entry →
            if decide (max_n_segments self - n ≤ Z.of_nat i)
            then is_Some entry else entry = None) as Hentries.
  { intros b entry Hentry.
    destruct (lookup_lt_is_Some_2 sb b) as [segs Hsegs].
    { apply lookup_lt_Some in Hentry. lia. }
    subst segmented.
    destruct (right_align_lookup _ sb i b segs Hilt Hsegs)
      as (slot' & Hslot' & Hb).
    rewrite Hi in Hslot'. inversion Hslot'; subst slot'.
    rewrite Hentry in Hb. inversion Hb; subst entry.
    rewrite (Hchunks _ _ Hsegs).
    destruct (decide (max_n_segments self - n ≤ Z.of_nat i)); [|done].
    apply lookup_lt_is_Some. pose proof (Hchunks _ _ Hsegs). lia. }
  case_decide.
  - destruct (populated_rows slot) as [rows ->].
    + apply Forall_lookup. intros b entry Hb. by apply (Hentries b).
    + exists rows. by rewrite length_map in Hlen.
  - apply Forall_lookup. intros b entry Hb. by apply (Hentries b).
Qed.

Section ReturnProperties.
Context `{M : BaseModel}.
Implicit Types (self : RMTEncoder) (kw : kwargs) (st : loop_state).




End ReturnProperties.



(** ** Labels *)

Section LabelProperties.
Context `{M : BaseModel}.
Implicit Types (self : RMTEncoder) (kw : kwargs) (st : loop_state).

(** What the loop body does with a fully populated slot, up to the selection
    of the labels. *)
Lemma segment_step_labels self (n : nat) kw (i : nat) (rows : list (list Z)) st :
  rows ≠ [] →
  Forall (fun r => Z.of_nat (length r) = input_size self) rows →
  match kw_labels kw with
  | None => segment_step self n kw i (map Some rows) st = Raise KeyError
  | Some ls =>
      length ls ≠ length rows →
      segment_step self n kw i (map Some rows) st = Raise IndexError
  end.
Proof.
  intros Hne Hw.
  assert (Torch.stack (map Some rows) = Ok rows) as Hstack.
  { apply (stack_total rows (Z.to_nat (input_size self))); [done|].
    eapply Forall_impl; [exact Hw|]. intros r Hr. simpl in Hr. lia. }
  assert ((Torch.count_true (map is_tensor (map Some rows)) =? 0)%nat = false)
    as Hcount.
  { rewrite mask_of_populated, count_true_replicate.
    apply Nat.eqb_neq. by destruct rows. }
  destruct (kw_labels kw) as [ls|] eqn:Hkw; [intros Hls|];
    unfold segment_step; rewrite Hcount, Hstack, Hkw, mask_of_populated;
    cbn [rbind]; unfold Torch.mask_select at 1;
    rewrite length_replicate, Nat.eqb_refl; cbn [rbind]; [|done].
  unfold Torch.mask_select at 1. rewrite length_replicate.
  destruct (Nat.eqb_spec (length rows) (length ls)) as [Heq|_]; [lia | done].
Qed.

(** The labels are indexed in the first slot that is processed: on a batch
    whose rows all give the same number [n >= 1] of chunks, a call without
    [labels] raises [KeyError], and one whose labels do not number the rows
    of the batch raises [IndexError], whatever the encoder. *)
Theorem labels_are_indexed_by_batch self input_ids kw (n : Z) :
  0 < segment_size self → 1 ≤ max_n_segments self →
  input_ids ≠ [] → 1 ≤ n →
  Forall (fun seq => n_seg self seq = n) input_ids →
  (kw_labels kw = None → __call__ self input_ids kw = Raise KeyError)
  ∧ (∀ ls, kw_labels kw = Some ls → length ls ≠ length input_ids →
           __call__ self input_ids kw = Raise IndexError).
Proof.
  intros Hs Hm Hne Hn Huniform.
  destruct (pad_and_segment_total self input_ids Hs Hm) as [segmented Hseg].
  { eapply Forall_impl; [exact Huniform|]. intros seq Hseq Hnil. simpl in Hseq.
    unfold n_seg in Hseq.
    assert (truncated self seq = []) as Hempty.
    { unfold truncated, Py.slice_to. rewrite Hnil.
      destruct (0 <=? _); apply take_nil. }
    rewrite Hempty in Hseq. change (Z.of_nat (length [])) with 0 in Hseq.
    rewrite ceil_div_0 in Hseq. lia. }
  pose proof (pad_and_segment_shape _ _ _ Hseg) as [Hslots _].
  destruct (uniform_batch_slots _ _ _ _ Hseg ltac:(lia) Huniform)
    as [Hnm Hslot].
  specialize (Hnm Hne).
  set (k := Z.to_nat (max_n_segments self - n)).
  destruct (lookup_lt_is_Some_2 segmented k) as [slot Hk]; [lia|].
  pose proof (Hslot k slot Hk) as Hpop.
  rewrite decide_True in Hpop by lia. destruct Hpop as (rows & -> & Hrows).
  assert (Forall (Forall (.= None)) (take k segmented)) as Hskipped.
  { apply Forall_lookup. intros i s Hi.
    apply lookup_take_Some in Hi as [Hi Hlt].
    specialize (Hslot i s Hi). by rewrite decide_False in Hslot by lia. }
  assert (segmented = take k segmented ++ map Some rows :: drop (S k) segmented)
    as Hsplit.
  { by rewrite <- (take_drop_middle _ _ _ Hk) at 1. }
  pose proof (segment_step_labels self (length segmented) kw) as Hstep.
  unfold __call__, run_forward. rewrite Hseg. cbn [rbind].
  split.
  - intros Hkw. rewrite Hkw in Hstep. rewrite Hsplit at 2.
    rewrite (run_segments_raise _ _ _ _ _ _ _ _ KeyError Hskipped); [done|].
    intros st' _. apply Hstep; [| by eapply slot_widths].
    intros ->. by destruct input_ids.
  - intros ls Hkw Hls. rewrite Hkw in Hstep. rewrite Hsplit at 2.
    rewrite (run_segments_raise _ _ _ _ _ _ _ _ IndexError Hskipped); [done|].
    intros st' _. apply Hstep; [| by eapply slot_widths | lia].
    intros ->. by destruct input_ids.
Qed.

End LabelProperties.

Lemma labels_are_indexed_by_batch_witness :
  @__call__ Examples.toy Examples.bert [Examples.seqA; Examples.seqA]
    (@Build_kwargs Examples.toy None false) = Raise KeyError
  ∧ @__call__ Examples.toy Examples.bert [Examples.seqA; Examples.seqA]
      (Examples.toy_kwargs [1]) = Raise IndexError.
Proof.
  split.
  - apply (@labels_are_indexed_by_batch Examples.toy Examples.bert
             [Examples.seqA; Examples.seqA]
             (@Build_kwargs Examples.toy None false) 3);
      [reflexivity | vm_compute; discriminate | discriminate | lia
       | repeat constructor | reflexivity].
  - apply (proj2 (@labels_are_indexed_by_batch Examples.toy Examples.bert
             [Examples.seqA; Examples.seqA] (Examples.toy_kwargs [1]) 3
             eq_refl ltac:(vm_compute; discriminate) ltac:(discriminate)
             ltac:(lia) ltac:(repeat constructor)) [1] eq_refl).
    simpl. lia.
Defined.
